(** * Lens profiles of lenstronomy: SIS_truncate and ElliSLICE

    A shallow embedding of
      - lenstronomy/LensModel/Profiles/sis_truncate.py
      - lenstronomy/LensModel/Profiles/elliptical_density_slice.py
    over the real numbers of the Standard Library.

    Conventions of the embedding.
      - A Python or numpy float is a real number [R]; rounding, signed
        zeros, inf and nan are not represented.  Where a statement turns
        on them, the scalar code is embedded a second time over the
        binary64 numbers of the kernel (module [binary64]), operation by
        operation.  A hypothesis that bounds a magnitude (between 1e-150
        and 1e150, say) keeps a statement to inputs whose squares are
        doubles, neither zero nor out of range; a margin such as 1e-12
        leaves room for the rounding of the operations.
      - A Python exception is a value of [exn]; code that may raise
        returns [res A].  The division of two Python floats raises
        ZeroDivisionError on a zero divisor ([pydiv]).  A division with a
        numpy operand never raises; it is [Rdiv], and no statement below
        depends on its value at a zero divisor.
      - Profile parameters (theta_E, r_trunc, a, b, psi, sigma_0 and the
        centers) are Python floats, as the docstrings say; the coordinates
        are either Python floats ([Scalar]) or one-dimensional numpy
        arrays ([Array]). *)

From Stdlib Require String.
From Stdlib Require Floats.
From Stdlib Require Import ZArith Reals List Bool Lra Lia Psatz.
Import ListNotations.
Import String.StringSyntax.
Delimit Scope string_scope with string.
Open Scope R_scope.

(** ** Python exceptions and results *)

Inductive exn : Type :=
| ZeroDivisionError
| ValueError
| TypeError
| IndexError
| OverflowError.

Inductive res (A : Type) : Type :=
| Ok (a : A)
| Raise (e : exn).

Arguments Ok {A} a.
Arguments Raise {A} e.

Definition bind {A B : Type} (m : res A) (k : A -> res B) : res B :=
  match m with
  | Ok a => k a
  | Raise e => Raise e
  end.

Notation "'let*' x ':=' m 'in' k" := (bind m (fun x => k))
  (at level 10, x pattern, m at level 100, k at level 200).

(** [x / y] on two Python floats. *)
Definition pydiv (x y : R) : res R :=
  if Req_dec_T y 0 then Raise ZeroDivisionError else Ok (x / y).

(** ** Comparisons as booleans *)

Definition Rlt_b (x y : R) : bool := if Rlt_dec x y then true else false.
Definition Rle_b (x y : R) : bool := if Rle_dec x y then true else false.
Definition Rgt_b (x y : R) : bool := Rlt_b y x.
Definition Rge_b (x y : R) : bool := Rle_b y x.
Definition Req_b (x y : R) : bool := if Req_dec_T x y then true else false.

(** ** Scalars and numpy arrays *)

Inductive value : Type :=
| Scalar (v : R)
| Array (vs : list R).

(** Elementwise combination of two arrays of the same length; numpy raises
    on lengths that do not broadcast, which is outside this model. *)
Fixpoint zip_with (f : R -> R -> R) (xs ys : list R) : list R :=
  match xs, ys with
  | x :: xs', y :: ys' => f x y :: zip_with f xs' ys'
  | _, _ => []
  end.

(** A binary numpy operation, with broadcasting of a scalar operand. *)
Definition vmap2 (f : R -> R -> R) (a b : value) : value :=
  match a, b with
  | Scalar x, Scalar y => Scalar (f x y)
  | Scalar x, Array ys => Array (map (f x) ys)
  | Array xs, Scalar y => Array (map (fun x => f x y) xs)
  | Array xs, Array ys => Array (zip_with f xs ys)
  end.

Definition vmap (f : R -> R) (a : value) : value :=
  match a with
  | Scalar x => Scalar (f x)
  | Array xs => Array (map f xs)
  end.

Definition vadd := vmap2 Rplus.
Definition vsub := vmap2 Rminus.
Definition vmul := vmap2 Rmult.
Definition vdiv := vmap2 Rdiv.
Definition vsqrt := vmap sqrt.
Definition vpow (a : value) (n : nat) : value := vmap (fun x => x ^ n) a.
Definition vneg := vmap Ropp.

(** Boolean masks: [r < c], [r > c], [m1 & m2] and so on. *)
Definition mask_lt (r : list R) (c : R) : list bool := map (fun v => Rlt_b v c) r.
Definition mask_gt (r : list R) (c : R) : list bool := map (fun v => Rgt_b v c) r.
Definition mask_ge (r : list R) (c : R) : list bool := map (fun v => Rge_b v c) r.
Definition mask_eq (r : list R) (c : R) : list bool := map (fun v => Req_b v c) r.

Fixpoint mask_and (m1 m2 : list bool) : list bool :=
  match m1, m2 with
  | b1 :: m1', b2 :: m2' => (b1 && b2) :: mask_and m1' m2'
  | _, _ => []
  end.

(** [r[m]]: the elements selected by a mask. *)
Fixpoint getitem (r : list R) (m : list bool) : list R :=
  match r, m with
  | v :: r', true :: m' => v :: getitem r' m'
  | _ :: r', false :: m' => getitem r' m'
  | _, _ => []
  end.

(** [f[m] = vals]: the selected positions receive the values in order.
    numpy raises when the number of values differs from the number of
    selected positions; the code below never does that. *)
Fixpoint setitem (f : list R) (m : list bool) (vals : list R) : list R :=
  match f, m with
  | x :: f', true :: m' =>
      match vals with
      | v :: vals' => v :: setitem f' m' vals'
      | [] => x :: setitem f' m' []
      end
  | x :: f', false :: m' => x :: setitem f' m' vals
  | _, _ => f
  end.

(** [f[m] = c] for a scalar [c]. *)
Fixpoint setitem_scalar (f : list R) (m : list bool) (c : R) : list R :=
  match f, m with
  | x :: f', b :: m' => (if b then c else x) :: setitem_scalar f' m' c
  | _, _ => f
  end.

Definition zeros_like (r : list R) : list R := map (fun _ => 0) r.

(** ** sis_truncate.py *)

Module SIS_truncate.

(** [SIS_truncate.function] *)
Definition function (x y : value) (theta_E r_trunc center_x center_y : R)
  : value :=
  let x_shift := vsub x (Scalar center_x) in
  let y_shift := vsub y (Scalar center_y) in
  let r := vsqrt (vadd (vmul x_shift x_shift) (vmul y_shift y_shift)) in
  match r with
  | Scalar r =>
      Scalar
        (if Rlt_b r r_trunc then theta_E * r
         else if Rlt_b r (2 * r_trunc) then
           theta_E * r_trunc
           + 1 / 2 * theta_E * (3 - r / r_trunc) * (r - r_trunc)
         else 3 / 2 * theta_E * r_trunc)
  | Array r =>
      let f_ := zeros_like r in
      let f_ :=
        setitem f_ (mask_lt r r_trunc)
          (map (fun v => theta_E * v) (getitem r (mask_lt r r_trunc))) in
      let r_ :=
        getitem r (mask_and (mask_lt r (2 * r_trunc)) (mask_gt r r_trunc)) in
      let f_ :=
        setitem f_ (mask_and (mask_lt r (2 * r_trunc)) (mask_gt r r_trunc))
          (map (fun v => theta_E * r_trunc
                         + 1 / 2 * theta_E * (3 - v / r_trunc) * (v - r_trunc))
               r_) in
      let f_ :=
        setitem_scalar f_ (mask_gt r (2 * r_trunc)) (3 / 2 * theta_E * r_trunc) in
      Array f_
  end.

(** [SIS_truncate._dphi_dr] *)
Definition _dphi_dr (x y : value) (theta_E r_trunc : R) : value :=
  let r := vsqrt (vadd (vmul x x) (vmul y y)) in
  match r with
  | Scalar r =>
      Scalar
        (if Req_b r 0 then 0
         else if Rlt_b r r_trunc then theta_E
         else if Rlt_b r (2 * r_trunc) then theta_E * (2 - r / r_trunc)
         else 0)
  | Array r =>
      let a := zeros_like r in
      let a :=
        setitem_scalar a (mask_and (mask_lt r r_trunc) (mask_gt r 0)) theta_E in
      let r_ :=
        getitem r (mask_and (mask_lt r (2 * r_trunc)) (mask_ge r r_trunc)) in
      let a :=
        setitem a (mask_and (mask_lt r (2 * r_trunc)) (mask_ge r r_trunc))
          (map (fun v => theta_E * (2 - v / r_trunc)) r_) in
      let a := setitem_scalar a (mask_ge r (2 * r_trunc)) 0 in
      Array a
  end.

(** [SIS_truncate._d2phi_dr2]; [-theta_E / r_trunc] divides two Python
    floats, in the array branch before any mask is looked at. *)
Definition _d2phi_dr2 (x y : value) (theta_E r_trunc : R) : res value :=
  let r := vsqrt (vadd (vmul x x) (vmul y y)) in
  match r with
  | Scalar r =>
      if Rlt_b r r_trunc then Ok (Scalar 0)
      else if Rlt_b r (2 * r_trunc) then
        let* a := pydiv (- theta_E) r_trunc in Ok (Scalar a)
      else Ok (Scalar 0)
  | Array r =>
      let a := zeros_like r in
      let a := setitem_scalar a (mask_lt r r_trunc) 0 in
      let* c := pydiv (- theta_E) r_trunc in
      let a :=
        setitem_scalar a
          (mask_and (mask_lt r (2 * r_trunc)) (mask_gt r r_trunc)) c in
      let a := setitem_scalar a (mask_gt r (2 * r_trunc)) 0 in
      Ok (Array a)
  end.

(** The guard [r == 0 -> r := 1] shared by [_dr_dx] and [_d2r_dx2]. *)
Definition guard_zero (r : value) : value :=
  match r with
  | Scalar r => Scalar (if Req_b r 0 then 1 else r)
  | Array r => Array (setitem_scalar r (mask_eq r 0) 1)
  end.

(** [SIS_truncate._dr_dx] *)
Definition _dr_dx (x y : value) : value * value :=
  let r := vsqrt (vadd (vpow x 2) (vpow y 2)) in
  let r := guard_zero r in
  (vdiv x r, vdiv y r).

(** [SIS_truncate._d2r_dx2] *)
Definition _d2r_dx2 (x y : value) : value * value * value :=
  let r := vsqrt (vadd (vpow x 2) (vpow y 2)) in
  let r := guard_zero r in
  (vdiv (vpow y 2) (vpow r 3),
   vdiv (vpow x 2) (vpow r 3),
   vdiv (vmul (vneg x) y) (vpow r 3)).

(** [SIS_truncate.derivatives] *)
Definition derivatives (x y : value) (theta_E r_trunc center_x center_y : R)
  : value * value :=
  let x_shift := vsub x (Scalar center_x) in
  let y_shift := vsub y (Scalar center_y) in
  let dphi_dr := _dphi_dr x_shift y_shift theta_E r_trunc in
  let '(dr_dx, dr_dy) := _dr_dx x_shift y_shift in
  let f_x := vmul dphi_dr dr_dx in
  let f_y := vmul dphi_dr dr_dy in
  (f_x, f_y).

(** [SIS_truncate.hessian]; [_dr_dx] receives [x] and [y], not the shifted
    coordinates. *)
Definition hessian (x y : value) (theta_E r_trunc center_x center_y : R)
  : res (value * value * value * value) :=
  let x_shift := vsub x (Scalar center_x) in
  let y_shift := vsub y (Scalar center_y) in
  let dphi_dr := _dphi_dr x_shift y_shift theta_E r_trunc in
  let* d2phi_dr2 := _d2phi_dr2 x_shift y_shift theta_E r_trunc in
  let '(dr_dx, dr_dy) := _dr_dx x y in
  let '(d2r_dx2, d2r_dy2, d2r_dxy) := _d2r_dx2 x_shift y_shift in
  let f_xx := vadd (vmul d2r_dx2 dphi_dr) (vmul (vpow dr_dx 2) d2phi_dr2) in
  let f_yy := vadd (vmul d2r_dy2 dphi_dr) (vmul (vpow dr_dy 2) d2phi_dr2) in
  let f_xy := vadd (vmul d2r_dxy dphi_dr) (vmul (vmul dr_dx dr_dy) d2phi_dr2) in
  Ok (f_xx, f_xy, f_xy, f_yy).

(** The radius about the center, as [function] computes it. *)
Definition radius (x y center_x center_y : R) : R :=
  sqrt ((x - center_x) * (x - center_x) + (y - center_y) * (y - center_y)).

(** The potential as a function of the radius, in the scalar branch. *)
Definition radial_potential (theta_E r_trunc r : R) : R :=
  if Rlt_b r r_trunc then theta_E * r
  else if Rlt_b r (2 * r_trunc) then
    theta_E * r_trunc + 1 / 2 * theta_E * (3 - r / r_trunc) * (r - r_trunc)
  else 3 / 2 * theta_E * r_trunc.

(** The array branch of [function], element by element: the masks are
    strict on both sides of each boundary, so an element whose radius is
    exactly [r_trunc] or [2 * r_trunc] keeps the zero of [zeros_like]. *)
Definition function_array_elem (theta_E r_trunc v : R) : R :=
  if Rgt_b v (2 * r_trunc) then 3 / 2 * theta_E * r_trunc
  else if Rlt_b v (2 * r_trunc) && Rgt_b v r_trunc then
    theta_E * r_trunc + 1 / 2 * theta_E * (3 - v / r_trunc) * (v - r_trunc)
  else if Rlt_b v r_trunc then theta_E * v
  else 0.

End SIS_truncate.

(** ** Complex numbers, cmath and numpy helpers *)

Record C : Type := mkC { re : R; im : R }.

(** [complex(x, y)] *)
Definition complex (x y : R) : C := mkC x y.

Definition Cadd (z w : C) : C := mkC (re z + re w) (im z + im w).
Definition Csub (z w : C) : C := mkC (re z - re w) (im z - im w).
Definition Cmul (z w : C) : C :=
  mkC (re z * re w - im z * im w) (re z * im w + im z * re w).
Definition conjugate (z : C) : C := mkC (re z) (- im z).

(** Mixed operations between a float and a complex. *)
Definition Rmul_c (s : R) (z : C) : C := mkC (s * re z) (s * im z).
Definition Cmul_r (z : C) (s : R) : C := mkC (re z * s) (im z * s).
Definition Csub_r (z : C) (s : R) : C := mkC (re z - s) (im z).
Definition Cdiv_r (z : C) (s : R) : C := mkC (re z / s) (im z / s).

(** [1j * t], [2j * t] and [-1j * t] for a float [t]. *)
Definition j_times (n t : R) : C := mkC 0 (n * t).

(** [cmath.exp] *)
Definition Cexp (z : C) : C :=
  mkC (exp (re z) * cos (im z)) (exp (re z) * sin (im z)).

(** [cmath.sqrt]: the principal square root, with a non-negative real
    part and the imaginary part of the sign of [im z]. *)
Definition Csqrt (z : C) : C :=
  let m := sqrt (re z * re z + im z * im z) in
  mkC (sqrt ((m + re z) / 2))
      ((if Rle_b 0 (im z) then 1 else -1) * sqrt ((m - re z) / 2)).

(** [np.arctan2] *)
Definition arctan2 (y x : R) : R :=
  if Rlt_b 0 x then atan (y / x)
  else if Rlt_b x 0 then
    (if Rle_b 0 y then atan (y / x) + PI else atan (y / x) - PI)
  else if Rlt_b 0 y then PI / 2
  else if Rlt_b y 0 then - (PI / 2)
  else 0.

(** [cmath.log]: the principal logarithm; it raises ValueError at zero. *)
Definition Clog (z : C) : res C :=
  if Req_b (re z) 0 && Req_b (im z) 0 then Raise ValueError
  else Ok (mkC (ln (sqrt (re z * re z + im z * im z)))
               (arctan2 (im z) (re z))).

(** [np.median] of a list: the middle of the sorted values, or the mean of
    the two middle ones.  (numpy returns nan for an empty list; the code
    only takes medians of three values.) *)
Fixpoint insert_sorted (v : R) (l : list R) : list R :=
  match l with
  | [] => [v]
  | x :: l' => if Rle_b v x then v :: l else x :: insert_sorted v l'
  end.

Definition sort_R (l : list R) : list R := fold_right insert_sorted [] l.

Definition np_median (l : list R) : R :=
  let s := sort_R l in
  let n := length s in
  if Nat.odd n then nth (n / 2) s 0
  else (nth (n / 2 - 1) s 0 + nth (n / 2) s 0) / 2.

(** Modelled from the spec: [lenstronomy.Util.param_util.cart2polar] is
    not among the sources; this is the Cartesian-to-polar conversion of
    the geometry utilities (radius and polar angle about the origin). *)
Definition cart2polar (x y : R) : R * R :=
  (sqrt (x ^ 2 + y ^ 2), arctan2 y x).

(** The list comprehension of the array branches: the first element that
    raises aborts the whole evaluation. *)
Fixpoint map_res {A B : Type} (f : A -> res B) (l : list A) : res (list B) :=
  match l with
  | [] => Ok []
  | x :: l' =>
      let* v := f x in
      let* vs := map_res f l' in
      Ok (v :: vs)
  end.

(** ** elliptical_density_slice.py *)

Module ElliSLICE.

(** The dictionary [kwargs_slice]; its keys are fixed. *)
Record kwargs : Type := mk_kwargs {
  center_x : R;
  center_y : R;
  a : R;
  b : R;
  psi : R;
  sigma_0 : R
}.

(** [ElliSLICE.sign] *)
Definition sign (z : C) : R :=
  let x := re z in
  let y := im z in
  if Rgt_b x 0 || (Req_b x 0 && Rge_b y 0) then 1 else -1.

(** [ElliSLICE.alpha_in] *)
Definition alpha_in (x y : R) (kwargs_slice : kwargs) : res (R * R) :=
  let z := complex x y in
  let zb := conjugate z in
  let psi := psi kwargs_slice in
  let* e := pydiv (a kwargs_slice - b kwargs_slice)
                  (a kwargs_slice + b kwargs_slice) in
  let sig_0 := sigma_0 kwargs_slice in
  let e2ipsi := Cexp (j_times 2 psi) in
  let I_in := Cmul_r (Csub z (Cmul (Rmul_c e zb) e2ipsi)) sig_0 in
  Ok (re I_in, im I_in).

(** The test [np.abs(np.sin(phi - psi)) <= 10**-10 or
    np.abs(np.sin(phi - psi - np.pi / 2.0)) <= 10**-10] of [alpha_ext] and
    [pot_ext]. *)
Definition median_op (phi psi : R) : bool :=
  Rle_b (Rabs (sin (phi - psi))) 1e-10
  || Rle_b (Rabs (sin (phi - psi - PI / 2))) 1e-10.

(** [ElliSLICE.pot_in] *)
Definition pot_in (x y : R) (kwargs_slice : kwargs) : res R :=
  let psi := psi kwargs_slice in
  let a := a kwargs_slice in
  let b := b kwargs_slice in
  let sig_0 := sigma_0 kwargs_slice in
  let* e := pydiv (a - b) (a + b) in
  let rE := (a + b) / 2 in
  let pot_in :=
    0.5
    * ((1 - e) * (x * cos psi + y * sin psi) ^ 2
       + (1 + e) * (y * cos psi - x * sin psi) ^ 2)
    * sig_0 in
  let cst := sig_0 * rE ^ 2 * (1 - e ^ 2) * ln rE in
  Ok (pot_in + cst).

Section Cmath.

(** [cmath.sqrt] and [cmath.log].  On their branch cuts the sign of a zero
    imaginary part selects the value Python returns; the two functions are
    parameters of the outside branch, which [alpha_ext] and [pot_ext]
    below instantiate with the principal values [Csqrt] and [Clog]. *)
Variable cmath_sqrt : C -> C.
Variable cmath_log : C -> res C.

(** [ElliSLICE.alpha_ext] *)
Definition alpha_ext_with (x y : R) (kwargs_slice : kwargs) : res (R * R) :=
  let z := complex x y in
  let '(r, phi) := cart2polar x y in
  let zb := conjugate z in
  let psi := psi kwargs_slice in
  let a := a kwargs_slice in
  let b := b kwargs_slice in
  let f2 := a ^ 2 - b ^ 2 in
  let sig_0 := sigma_0 kwargs_slice in
  let median_op := median_op phi psi in
  let e2ipsi := Cexp (j_times 2 psi) in
  let eipsi := Cexp (j_times 1 psi) in
  if median_op then
    let eps := 1e-10 in
    let z_minus_eps := complex (r * cos (phi - eps)) (r * sin (phi - eps)) in
    let zb_minus_eps := conjugate z_minus_eps in
    let z_plus_eps := complex (r * cos (phi + eps)) (r * sin (phi + eps)) in
    let zb_plus_eps := conjugate z_plus_eps in
    let* c_minus := pydiv (2 * a * b) f2 in
    let I_out_minus :=
      Cmul_r
        (Rmul_c c_minus
           (Csub (Cmul zb_minus_eps e2ipsi)
              (Cmul (Cmul_r eipsi (sign (Cmul zb_minus_eps eipsi)))
                 (cmath_sqrt (Csub_r (Cmul (Cmul zb_minus_eps zb_minus_eps) e2ipsi)
                           f2)))))
        sig_0 in
    let* c_plus := pydiv (2 * a * b) f2 in
    let I_out_plus :=
      Cmul_r
        (Rmul_c c_plus
           (Csub (Cmul zb_plus_eps e2ipsi)
              (Cmul (Cmul_r eipsi (sign (Cmul zb_plus_eps eipsi)))
                 (cmath_sqrt (Csub_r (Cmul (Cmul zb_plus_eps zb_plus_eps) e2ipsi)
                           f2)))))
        sig_0 in
    let* c_mid := pydiv (2 * a * b) f2 in
    let I_out_mid :=
      Cmul_r
        (Rmul_c c_mid
           (Csub (Cmul zb e2ipsi)
              (Cmul (Cmul_r eipsi (sign (Cmul zb eipsi)))
                 (cmath_sqrt (Csub_r (Cmul (Cmul zb zb) e2ipsi) f2)))))
        sig_0 in
    let I_out_real :=
      np_median [re I_out_minus; re I_out_plus; re I_out_mid] in
    let I_out_imag :=
      np_median [im I_out_minus; im I_out_plus; im I_out_mid] in
    Ok (I_out_real, I_out_imag)
  else
    if Req_b a b && Rgt_b (x ^ 2 + y ^ 2) (a ^ 2) then
      (* the divisor exceeds a ** 2 and so is not zero *)
      let I_out_real := sig_0 * a ^ 2 * x / (x ^ 2 + y ^ 2) in
      let I_out_imag := sig_0 * a ^ 2 * y / (x ^ 2 + y ^ 2) in
      Ok (I_out_real, I_out_imag)
    else
      let* c := pydiv (2 * a * b) f2 in
      let I_out :=
        Cmul_r
          (Rmul_c c
             (Csub (Cmul zb e2ipsi)
                (Cmul (Cmul_r eipsi (sign (Cmul zb eipsi)))
                   (cmath_sqrt (Csub_r (Cmul (Cmul zb zb) e2ipsi) f2)))))
          sig_0 in
      let I_out_real := re I_out in
      let I_out_imag := im I_out in
      Ok (I_out_real, I_out_imag).

(** [ElliSLICE.pot_ext] *)
Definition pot_ext_with (x y : R) (kwargs_slice : kwargs) : res R :=
  let z := complex x y in
  let psi := psi kwargs_slice in
  let a := a kwargs_slice in
  let b := b kwargs_slice in
  let sig_0 := sigma_0 kwargs_slice in
  let '(r, phi) := cart2polar x y in
  let median_op := median_op phi psi in
  let* e := pydiv (a - b) (a + b) in
  let f2 := a ^ 2 - b ^ 2 in
  let emipsi := Cexp (j_times (-1) psi) in
  let em2ipsi := Cexp (j_times (-2) psi) in
  if median_op then
    let eps := 1e-10 in
    let z_minus_eps := complex (r * cos (phi - eps)) (r * sin (phi - eps)) in
    let z_plus_eps := complex (r * cos (phi + eps)) (r * sin (phi + eps)) in
    let* c_minus := pydiv (1 - e ^ 2) (4 * e) in
    let* l_minus :=
      cmath_log (Cdiv_r
              (Cadd (Cmul (Rmul_c (sign (Cmul z_minus_eps emipsi)) z_minus_eps)
                       emipsi)
                 (cmath_sqrt (Csub_r (Cmul (Cmul z_minus_eps z_minus_eps) em2ipsi)
                           f2)))
              2) in
    let pot_ext_minus :=
      Cmul_r
        (Rmul_c c_minus
           (Cadd
              (Csub (Rmul_c f2 l_minus)
                 (Cmul
                    (Cmul (Rmul_c (sign (Cmul z_minus_eps emipsi)) z_minus_eps)
                       emipsi)
                    (cmath_sqrt
                       (Csub_r (Cmul (Cmul z_minus_eps z_minus_eps) em2ipsi)
                          f2))))
              (Cmul (Cmul z_minus_eps z_minus_eps) em2ipsi)))
        sig_0 in
    let* c_plus := pydiv (1 - e ^ 2) (4 * e) in
    let* l_plus :=
      cmath_log (Cdiv_r
              (Cadd (Cmul (Rmul_c (sign (Cmul z_plus_eps emipsi)) z_plus_eps)
                       emipsi)
                 (cmath_sqrt (Csub_r (Cmul (Cmul z_plus_eps z_plus_eps) em2ipsi)
                           f2)))
              2) in
    let pot_ext_plus :=
      Cmul_r
        (Rmul_c c_plus
           (Cadd
              (Csub (Rmul_c f2 l_plus)
                 (Cmul
                    (Cmul (Rmul_c (sign (Cmul z_plus_eps emipsi)) z_plus_eps)
                       emipsi)
                    (cmath_sqrt
                       (Csub_r (Cmul (Cmul z_plus_eps z_plus_eps) em2ipsi)
                          f2))))
              (Cmul (Cmul z_plus_eps z_plus_eps) em2ipsi)))
        sig_0 in
    let* c_mid := pydiv (1 - e ^ 2) (4 * e) in
    let* l_mid :=
      cmath_log (Cdiv_r
              (Cadd (Cmul (Rmul_c (sign (Cmul z emipsi)) z) emipsi)
                 (cmath_sqrt (Csub_r (Cmul (Cmul z z) em2ipsi) f2)))
              2) in
    let pot_ext_mid :=
      Cmul_r
        (Rmul_c c_mid
           (Cadd
              (Csub (Rmul_c f2 l_mid)
                 (Cmul (Cmul (Rmul_c (sign (Cmul z emipsi)) z) emipsi)
                    (cmath_sqrt (Csub_r (Cmul (Cmul z z) em2ipsi) f2))))
              (Cmul (Cmul z z) em2ipsi)))
        sig_0 in
    Ok (np_median [re pot_ext_minus; re pot_ext_plus; re pot_ext_mid])
  else
    let* c := pydiv (1 - e ^ 2) (4 * e) in
    let* l :=
      cmath_log (Cdiv_r
              (Cadd (Cmul (Rmul_c (sign (Cmul z emipsi)) z) emipsi)
                 (cmath_sqrt (Csub_r (Cmul (Cmul z z) em2ipsi) f2)))
              2) in
    Ok (re
          (Cmul_r
             (Rmul_c c
                (Cadd
                   (Csub (Rmul_c f2 l)
                      (Cmul (Cmul (Rmul_c (sign (Cmul z emipsi)) z) emipsi)
                         (cmath_sqrt (Csub_r (Cmul (Cmul z z) em2ipsi) f2))))
                   (Cmul (Cmul z z) em2ipsi)))
             sig_0)).

End Cmath.

Definition alpha_ext : R -> R -> kwargs -> res (R * R) :=
  alpha_ext_with Csqrt.

Definition pot_ext : R -> R -> kwargs -> res R :=
  pot_ext_with Csqrt Clog.

(** The membership test [(x_rot**2 / a**2) + (y_rot**2 / b**2) <= 1].
    [x_rot] and [y_rot] are numpy numbers: divided by a zero [a**2] or
    [b**2] they give inf or nan and no exception, and the comparison of
    the sum with 1 is then False. *)
Definition inside (x_rot y_rot a b : R) : bool :=
  if Req_b (a ^ 2) 0 || Req_b (b ^ 2) 0 then false
  else Rle_b (x_rot ^ 2 / a ^ 2 + y_rot ^ 2 / b ^ 2) 1.

(** [ElliSLICE.function].  [len(x_)] fails on a float, which selects the
    scalar branch.  A float mixed with an array fails in Python one way or
    another ([y_[i]] on a float, the truth value of an array); the model
    answers TypeError there and nothing below depends on it. *)
Definition function (x y : value) (a b psi sigma_0 center_x center_y : R)
  : res value :=
  let kwargs_slice := mk_kwargs center_x center_y a b psi sigma_0 in
  let x_ := vsub x (Scalar center_x) in
  let y_ := vsub y (Scalar center_y) in
  let x_rot := vadd (vmul x_ (Scalar (cos psi))) (vmul y_ (Scalar (sin psi))) in
  let y_rot :=
    vadd (vmul (vneg x_) (Scalar (sin psi))) (vmul y_ (Scalar (cos psi))) in
  match x_, y_, x_rot, y_rot with
  | Scalar x_, Scalar y_, Scalar x_rot, Scalar y_rot =>
      let* f :=
        if inside x_rot y_rot a b then pot_in x_ y_ kwargs_slice
        else pot_ext x_ y_ kwargs_slice in
      Ok (Scalar f)
  | Array x_, Array y_, Array x_rot, Array y_rot =>
      let* f :=
        map_res
          (fun i =>
             if inside (nth i x_rot 0) (nth i y_rot 0) a b
             then pot_in (nth i x_ 0) (nth i y_ 0) kwargs_slice
             else pot_ext (nth i x_ 0) (nth i y_ 0) kwargs_slice)
          (seq 0 (length x_)) in
      Ok (Array f)
  | _, _, _, _ => Raise TypeError
  end.

(** [ElliSLICE.derivatives].  On an empty array [defl] has one dimension
    and [defl[:, 0]] raises IndexError. *)
Definition derivatives (x y : value) (a b psi sigma_0 center_x center_y : R)
  : res (value * value) :=
  let kwargs_slice := mk_kwargs center_x center_y a b psi sigma_0 in
  let x_ := vsub x (Scalar center_x) in
  let y_ := vsub y (Scalar center_y) in
  let x_rot := vadd (vmul x_ (Scalar (cos psi))) (vmul y_ (Scalar (sin psi))) in
  let y_rot :=
    vadd (vmul (vneg x_) (Scalar (sin psi))) (vmul y_ (Scalar (cos psi))) in
  match x_, y_, x_rot, y_rot with
  | Scalar x_, Scalar y_, Scalar x_rot, Scalar y_rot =>
      let* d :=
        if inside x_rot y_rot a b then alpha_in x_ y_ kwargs_slice
        else alpha_ext x_ y_ kwargs_slice in
      Ok (Scalar (fst d), Scalar (snd d))
  | Array x_, Array y_, Array x_rot, Array y_rot =>
      let* defl :=
        map_res
          (fun i =>
             if inside (nth i x_rot 0) (nth i y_rot 0) a b
             then alpha_in (nth i x_ 0) (nth i y_ 0) kwargs_slice
             else alpha_ext (nth i x_ 0) (nth i y_ 0) kwargs_slice)
          (seq 0 (length x_)) in
      match defl with
      | [] => Raise IndexError
      | _ => Ok (Array (map fst defl), Array (map snd defl))
      end
  | _, _, _, _ => Raise TypeError
  end.

(** [ElliSLICE.hessian] *)
Definition hessian (x y : value) (a b psi sigma_0 center_x center_y : R)
  : res (value * value * value * value) :=
  let diff := 0.000000001 in
  let* (alpha_ra, alpha_dec) :=
    derivatives x y a b psi sigma_0 center_x center_y in
  let* (alpha_ra_dx, alpha_dec_dx) :=
    derivatives (vadd x (Scalar diff)) y a b psi sigma_0 center_x center_y in
  let* (alpha_ra_dy, alpha_dec_dy) :=
    derivatives x (vadd y (Scalar diff)) a b psi sigma_0 center_x center_y in
  let f_xx := vdiv (vsub alpha_ra_dx alpha_ra) (Scalar diff) in
  let f_xy := vdiv (vsub alpha_ra_dy alpha_ra) (Scalar diff) in
  let f_yx := vdiv (vsub alpha_dec_dx alpha_dec) (Scalar diff) in
  let f_yy := vdiv (vsub alpha_dec_dy alpha_dec) (Scalar diff) in
  Ok (f_xx, f_xy, f_yx, f_yy).

(** The scalar branch of [derivatives] and of [function]. *)
Definition deflection (a b psi sigma_0 center_x center_y x y : R)
  : res (R * R) :=
  let kwargs_slice := mk_kwargs center_x center_y a b psi sigma_0 in
  let x_ := x - center_x in
  let y_ := y - center_y in
  if inside (x_ * cos psi + y_ * sin psi) (- x_ * sin psi + y_ * cos psi) a b
  then alpha_in x_ y_ kwargs_slice
  else alpha_ext x_ y_ kwargs_slice.

Definition potential (a b psi sigma_0 center_x center_y x y : R) : res R :=
  let kwargs_slice := mk_kwargs center_x center_y a b psi sigma_0 in
  let x_ := x - center_x in
  let y_ := y - center_y in
  if inside (x_ * cos psi + y_ * sin psi) (- x_ * sin psi + y_ * cos psi) a b
  then pot_in x_ y_ kwargs_slice
  else pot_ext x_ y_ kwargs_slice.


(** The point of radius [r] and polar angle [phi]. *)
Definition polar_point (r phi : R) : C :=
  complex (r * cos phi) (r * sin phi).

Section Closed_forms.

Variable cmath_sqrt : C -> C.
Variable cmath_log : C -> res C.

(** The closed-form outside deflection of the specification, evaluated at
    the point [z]: with zb the conjugate of z,
    2ab / f2 * (zb e^{2i psi} - e^{i psi} sign(zb e^{i psi})
                                 sqrt(zb^2 e^{2i psi} - f2)) * sigma_0. *)
Definition closed_form_deflection_with (kwargs_slice : kwargs) (z : C) : res C :=
  let zb := conjugate z in
  let a := a kwargs_slice in
  let b := b kwargs_slice in
  let f2 := a ^ 2 - b ^ 2 in
  let e2ipsi := Cexp (j_times 2 (psi kwargs_slice)) in
  let eipsi := Cexp (j_times 1 (psi kwargs_slice)) in
  let* c := pydiv (2 * a * b) f2 in
  Ok (Cmul_r
        (Rmul_c c
           (Csub (Cmul zb e2ipsi)
              (Cmul (Cmul_r eipsi (sign (Cmul zb eipsi)))
                 (cmath_sqrt (Csub_r (Cmul (Cmul zb zb) e2ipsi) f2)))))
        (sigma_0 kwargs_slice)).

(** The closed-form outside potential of the specification, evaluated at
    the point [z] for the eccentricity [e]:
    (1 - e^2) / (4e) * (f2 log((s w + sqrt(w^2 - f2)) / 2)
                        - s w sqrt(w^2 - f2) + w^2) * sigma_0
    with w = z e^{-i psi} and s = sign(w). *)
Definition closed_form_potential_with (kwargs_slice : kwargs) (e : R) (z : C)
  : res C :=
  let a := a kwargs_slice in
  let b := b kwargs_slice in
  let f2 := a ^ 2 - b ^ 2 in
  let emipsi := Cexp (j_times (-1) (psi kwargs_slice)) in
  let em2ipsi := Cexp (j_times (-2) (psi kwargs_slice)) in
  let* c := pydiv (1 - e ^ 2) (4 * e) in
  let* l :=
    cmath_log (Cdiv_r
            (Cadd (Cmul (Rmul_c (sign (Cmul z emipsi)) z) emipsi)
               (cmath_sqrt (Csub_r (Cmul (Cmul z z) em2ipsi) f2)))
            2) in
  Ok (Cmul_r
        (Rmul_c c
           (Cadd
              (Csub (Rmul_c f2 l)
                 (Cmul (Cmul (Rmul_c (sign (Cmul z emipsi)) z) emipsi)
                    (cmath_sqrt (Csub_r (Cmul (Cmul z z) em2ipsi) f2))))
              (Cmul (Cmul z z) em2ipsi)))
        (sigma_0 kwargs_slice)).

End Closed_forms.

Definition closed_form_deflection : kwargs -> C -> res C :=
  closed_form_deflection_with Csqrt.


(** The polar angle [phi] is within 1e-10 radians of an axis of an ellipse
    of orientation [psi]: of one of the directions psi + n pi / 2. *)
Definition near_axis (phi psi : R) : Prop :=
  exists n : Z, Rabs (phi - psi - IZR n * (PI / 2)) <= 1e-10.

(** The polar angle [phi] is clear of the axes: further than 1e-10 radians
    from every direction psi + n pi / 2, by the 2e-31 radians that
    separate an angle of 1e-10 from the angle whose sine is 1e-10 (a gap
    that no double resolves). *)
Definition clear_of_axes (phi psi : R) : Prop :=
  forall n : Z, 1e-10 + 2e-31 <= Rabs (phi - psi - IZR n * (PI / 2)).

(** A point is outside when the membership test of [function] and
    [derivatives] fails on its centered coordinates. *)
Definition outside (x_ y_ : R) (kwargs_slice : kwargs) : Prop :=
  inside (x_ * cos (psi kwargs_slice) + y_ * sin (psi kwargs_slice))
         (- x_ * sin (psi kwargs_slice) + y_ * cos (psi kwargs_slice))
         (a kwargs_slice) (b kwargs_slice) = false.

End ElliSLICE.

(** ** Views of the radial profile used by the further properties *)

(** The number held by a scalar result. *)
Definition scalar_of (v : value) : R :=
  match v with
  | Scalar r => r
  | Array _ => 0
  end.

(** The scalar branch of [SIS_truncate._dphi_dr] as a function of the
    radius. *)
Definition radial_deflection (theta_E r_trunc r : R) : R :=
  if Req_b r 0 then 0
  else if Rlt_b r r_trunc then theta_E
  else if Rlt_b r (2 * r_trunc) then theta_E * (2 - r / r_trunc)
  else 0.

(** The slope of the radial potential, without the special case of
    [_dphi_dr] at the radius 0. *)
Definition radial_slope (theta_E r_trunc r : R) : R :=
  if Rlt_b r r_trunc then theta_E
  else if Rlt_b r (2 * r_trunc) then theta_E * (2 - r / r_trunc)
  else 0.

(** The scalar branch of [_d2phi_dr2] as a function of the radius. *)
Definition radial_curvature (theta_E r_trunc r : R) : R :=
  if Rlt_b r r_trunc then 0
  else if Rlt_b r (2 * r_trunc) then - theta_E / r_trunc
  else 0.

(** The radius after the guard [r == 0 -> r := 1]. *)
Definition guarded (r : R) : R := if Req_b r 0 then 1 else r.

(** The value of a result that did not raise. *)
Definition res_value (m : res R) : R :=
  match m with
  | Ok v => v
  | Raise _ => 0
  end.

(** The membership test of [function] and [derivatives] holds at
    (x, y). *)
Definition within (a b psi center_x center_y x y : R) : Prop :=
  ElliSLICE.inside ((x - center_x) * cos psi + (y - center_y) * sin psi)
         (- (x - center_x) * sin psi + (y - center_y) * cos psi) a b = true.

(** ** Dictionaries with string keys *)

(** A Python dict from parameter names to floats, in insertion order. *)
Definition dict : Type := list (String.string * R).

(** [d.get(key)]: the value of the first entry with that key. *)
Fixpoint dict_get (d : dict) (key : String.string) : option R :=
  match d with
  | [] => None
  | (k, v) :: d' => if String.eqb k key then Some v else dict_get d' key
  end.

Definition dict_keys (d : dict) : list String.string := map fst d.

(** ** Class attributes of the two profiles *)

Module SIS_truncate_params.

Definition param_names : list String.string :=
  ["theta_E"%string; "r_trunc"%string; "center_x"%string; "center_y"%string].

Definition lower_limit_default : dict :=
  [("theta_E"%string, 0); ("r_trunc"%string, 0);
   ("center_x"%string, -100); ("center_y"%string, -100)].

Definition upper_limit_default : dict :=
  [("theta_E"%string, 100); ("r_trunc"%string, 100);
   ("center_x"%string, 100); ("center_y"%string, 100)].

End SIS_truncate_params.

Module ElliSLICE_params.

Definition param_names : list String.string :=
  ["a"%string; "b"%string; "psi"%string; "sigma_0"%string;
   "center_x"%string; "center_y"%string].

Definition lower_limit_default : dict :=
  [("a"%string, 0.0); ("b"%string, 0.0);
   ("psi"%string, - 90.0 / 180.0 * PI);
   ("center_x"%string, -100.0); ("center_y"%string, -100.0)].

Definition upper_limit_default : dict :=
  [("a"%string, 100.0); ("b"%string, 100.0);
   ("psi"%string, 90.0 / 180.0 * PI);
   ("center_x"%string, 100.0); ("center_y"%string, 100.0)].

End ElliSLICE_params.

(** ** Util/data_util.py *)

Module data_util.

(** [np.log10] *)
Definition log10 (x : R) : R := ln x / ln 10.

(** [bkg_noise]; [num_exposures] defaults to 1. *)
Definition bkg_noise
  (readout_noise exposure_time sky_brightness pixel_scael num_exposures : R)
  : R :=
  let exposure_time_tot := num_exposures * exposure_time in
  let readout_noise_tot := num_exposures * readout_noise ^ 2 in
  let sky_per_pixel := sky_brightness * pixel_scael ^ 2 in
  let sigma_bkg :=
    sqrt (readout_noise_tot + exposure_time_tot * sky_per_pixel ^ 2)
    / exposure_time_tot in
  sigma_bkg.

(** [flux_noise] *)
Definition flux_noise (cps_pixel exposure_time : R) : R :=
  cps_pixel / sqrt exposure_time.

(** [magnitude2cps]; [10 ** x] with a float exponent is the real power. *)
Definition magnitude2cps (magnitude magnitude_zero_point : R) : R :=
  let delta_M := magnitude - magnitude_zero_point in
  let counts := Rpower 10 (- delta_M / 2.5) in
  counts.

(** [absolute2apparent_magnitude] *)
Definition absolute2apparent_magnitude (absolute_magnitude d_parsec : R) : R :=
  let m_apparent := 5.8 * (log10 d_parsec - 1) + absolute_magnitude in
  m_apparent.

End data_util.

(** ** LensModel/Optimizer/fixed_routines.py *)

Module fixed_routines.

(** The exceptions of this file: a failed [assert], a list index out of
    range and a missing dictionary key. *)
Inductive error : Type :=
| AssertionError
| ListIndexError
| KeyError (key : String.string).

Inductive result (A : Type) : Type :=
| Okay (a : A)
| Fail (e : error).

Arguments Okay {A} a.
Arguments Fail {A} e.

Definition and_then {A B : Type} (m : result A) (k : A -> result B)
  : result B :=
  match m with
  | Okay a => k a
  | Fail e => Fail e
  end.

Notation "'try*' x ':=' m 'in' k" := (and_then m (fun x => k))
  (at level 10, x pattern, m at level 100, k at level 200).

(** [l[i]] on a list. *)
Definition list_item {A : Type} (l : list A) (i : nat) : result A :=
  match nth_error l i with
  | Some x => Okay x
  | None => Fail ListIndexError
  end.

(** [d[key]] on a dict. *)
Definition dict_item (d : dict) (key : String.string) : result R :=
  match dict_get d key with
  | Some v => Okay v
  | None => Fail (KeyError key)
  end.

(** [self.kwargs_lens[i][key]] *)
Definition lens_item (kwargs_lens : list dict) (i : nat) (key : String.string)
  : result R :=
  try* d := list_item kwargs_lens i in dict_item d key.

(** The attributes set by [__init__], the same in both classes. *)
Record routine : Type := mk_routine {
  Ntovary : nat;
  k_start : nat;
  tovary_indicies : list nat;
  kwargs_lens : list dict;
  to_vary_names : list (list String.string)
}.

(** [get_param_ranges], whose body is the same in both classes. *)
Definition param_ranges (self : routine) (reoptimize : bool)
  : result (list R * list R) :=
  if reoptimize then
    let e1_e2 := 0.005 in
    let e1_e2_shear := 0.005 in
    let theta_E := 0.001 in
    let center := 0.001 in
    try* v := lens_item (kwargs_lens self) 0 "e1"%string in
    let low_e1 := v - e1_e2 in
    try* v := lens_item (kwargs_lens self) 0 "e2"%string in
    let low_e2 := v - e1_e2 in
    try* v := lens_item (kwargs_lens self) 0 "e1"%string in
    let hi_e1 := v + e1_e2 in
    try* v := lens_item (kwargs_lens self) 0 "e2"%string in
    let hi_e2 := v + e1_e2 in
    try* v := lens_item (kwargs_lens self) 1 "e1"%string in
    let low_shear_e1 := v - e1_e2_shear in
    try* v := lens_item (kwargs_lens self) 1 "e1"%string in
    let high_shear_e1 := v + e1_e2_shear in
    try* v := lens_item (kwargs_lens self) 1 "e2"%string in
    let low_shear_e2 := v - e1_e2_shear in
    try* v := lens_item (kwargs_lens self) 1 "e2"%string in
    let high_shear_e2 := v + e1_e2_shear in
    try* v := lens_item (kwargs_lens self) 0 "theta_E"%string in
    let low_Rein := v - theta_E in
    try* v := lens_item (kwargs_lens self) 0 "theta_E"%string in
    let hi_Rein := v + theta_E in
    try* v := lens_item (kwargs_lens self) 0 "center_x"%string in
    let low_centerx := v - center in
    try* v := lens_item (kwargs_lens self) 0 "center_x"%string in
    let hi_centerx := v + center in
    try* v := lens_item (kwargs_lens self) 0 "center_y"%string in
    let low_centery := v - center in
    try* v := lens_item (kwargs_lens self) 0 "center_y"%string in
    let hi_centery := v + center in
    let sie_list_low := [low_Rein; low_centerx; low_centery; low_e1; low_e2] in
    let sie_list_high := [hi_Rein; hi_centerx; hi_centery; hi_e1; hi_e2] in
    let shear_list_low := [low_shear_e1; low_shear_e2] in
    let shear_list_high := [high_shear_e1; high_shear_e2] in
    Okay (sie_list_low ++ shear_list_low, sie_list_high ++ shear_list_high)
  else
    let low_e1 := -0.1 in
    let low_e2 := low_e1 in
    let hi_e1 := 0.1 in
    let hi_e2 := hi_e1 in
    let low_shear_e1 := -0.05 in
    let high_shear_e1 := 0.05 in
    let low_shear_e2 := low_shear_e1 in
    let high_shear_e2 := high_shear_e1 in
    let low_Rein := 0.7 in
    let hi_Rein := 1.4 in
    let low_centerx := -0.01 in
    let hi_centerx := 0.01 in
    let low_centery := low_centerx in
    let hi_centery := hi_centerx in
    let sie_list_low := [low_Rein; low_centerx; low_centery; low_e1; low_e2] in
    let sie_list_high := [hi_Rein; hi_centerx; hi_centery; hi_e1; hi_e2] in
    let shear_list_low := [low_shear_e1; low_shear_e2] in
    let shear_list_high := [high_shear_e1; high_shear_e2] in
    Okay (sie_list_low ++ shear_list_low, sie_list_high ++ shear_list_high).

(** [__init__] of a class whose first model must be [first_model]; the two
    asserts index the list before they compare. *)
Definition init (first_model : String.string)
  (lens_model_list : list String.string) (kwargs_lens : list dict)
  : result routine :=
  try* m0 := list_item lens_model_list 0 in
  if String.eqb m0 first_model then
    try* m1 := list_item lens_model_list 1 in
    if String.eqb m1 "SHEAR"%string then
      Okay (mk_routine 2 2 [0%nat; 1%nat] kwargs_lens
              [["theta_E"%string; "center_x"%string; "center_y"%string;
                "e1"%string; "e2"%string];
               ["e1"%string; "e2"%string]])
    else Fail AssertionError
  else Fail AssertionError.

(** [vary_model_fixed], the same in both classes. *)
Definition fixed_model (self : routine) : result dict :=
  try* gamma := lens_item (kwargs_lens self) 0 "gamma"%string in
  Okay [("gamma"%string, gamma)].

Module SIE_shear.
Definition __init__ := init "SPEMD"%string.
Definition vary_model_fixed := fixed_model.
Definition get_param_ranges := param_ranges.
End SIE_shear.

Module SPEP_shear.
Definition __init__ := init "SPEP"%string.
Definition vary_model_fixed := fixed_model.
Definition get_param_ranges := param_ranges.
End SPEP_shear.

(** The varied parameters in the order of the ranges: the names of
    [to_vary_names], each with the index of its lens model from
    [tovary_indicies]. *)
Definition varied_parameters (self : routine)
  : list (nat * String.string) :=
  flat_map (fun p => map (fun name => (fst p, name)) (snd p))
    (combine (tovary_indicies self) (to_vary_names self)).

End fixed_routines.

(** ** The scalar code over binary64

    The same scalar code paths with Python's floats as IEEE 754 binary64
    numbers, rounded to nearest even at every operation as CPython and
    numpy do. *)

Module binary64.
Import PrimFloat.
#[local] Open Scope float_scope.

(** [x ** 2] on a Python float is C's [pow(x, 2.0)], whose value is the
    rounded square.  CPython raises OverflowError when [pow] overflows on
    a finite base, and returns the 0.0 of an underflow silently. *)
Definition float_pow2 (x : float) : res float :=
  let p := x * x in
  if is_infinity p && negb (is_infinity x) then Raise OverflowError
  else Ok p.

Module SIS_truncate.

(** The scalar branch of [SIS_truncate.function]: [np.sqrt] of a Python
    float is a numpy float64, which is a [float] for [isinstance]. *)
Definition function (x y theta_E r_trunc center_x center_y : float) : float :=
  let x_shift := x - center_x in
  let y_shift := y - center_y in
  let r := sqrt (x_shift * x_shift + y_shift * y_shift) in
  if r <? r_trunc then theta_E * r
  else if r <? 2 * r_trunc then
    theta_E * r_trunc + 1 / 2 * theta_E * (3 - r / r_trunc) * (r - r_trunc)
  else 3 / 2 * theta_E * r_trunc.

End SIS_truncate.

Module ElliSLICE.

Section Scalar_branch.

(** numpy's cosine and sine, and the two branch functions of the class,
    which the membership test selects. *)
Variables np_cos np_sin : float -> float.
Variables alpha_in alpha_ext :
  float -> float -> float -> float -> float -> float -> res (float * float).

(** The scalar branch of [ElliSLICE.derivatives].  [x_rot] and [y_rot]
    are numpy float64 numbers, so that their squares and the two
    divisions never raise; [a ** 2] and [b ** 2] are powers of Python
    floats, evaluated in this order: [x_rot**2], [a**2], [y_rot**2],
    [b**2].  The branch functions receive the centered coordinates and
    the entries a, b, psi, sigma_0 of [kwargs_slice]. *)
Definition derivatives (x y a b psi sigma_0 center_x center_y : float)
  : res (float * float) :=
  let x_ := x - center_x in
  let y_ := y - center_y in
  let x_rot := x_ * np_cos psi + y_ * np_sin psi in
  let y_rot := - x_ * np_sin psi + y_ * np_cos psi in
  let* a2 := float_pow2 a in
  let* b2 := float_pow2 b in
  if x_rot * x_rot / a2 + y_rot * y_rot / b2 <=? 1
  then alpha_in x_ y_ a b psi sigma_0
  else alpha_ext x_ y_ a b psi sigma_0.

End Scalar_branch.

End ElliSLICE.

End binary64.

(** ** Basic facts on comparisons, masks and item assignment *)

Lemma Rlt_b_true x y : x < y -> Rlt_b x y = true.
Proof. intros H; unfold Rlt_b; destruct (Rlt_dec x y); [reflexivity | contradiction]. Qed.

Lemma Rlt_b_false x y : ~ x < y -> Rlt_b x y = false.
Proof. intros H; unfold Rlt_b; destruct (Rlt_dec x y); [contradiction | reflexivity]. Qed.

Lemma Rle_b_true x y : x <= y -> Rle_b x y = true.
Proof. intros H; unfold Rle_b; destruct (Rle_dec x y); [reflexivity | contradiction]. Qed.

Lemma Rle_b_false x y : ~ x <= y -> Rle_b x y = false.
Proof. intros H; unfold Rle_b; destruct (Rle_dec x y); [contradiction | reflexivity]. Qed.

Lemma Req_b_true x y : x = y -> Req_b x y = true.
Proof. intros H; unfold Req_b; destruct (Req_dec_T x y); [reflexivity | contradiction]. Qed.

Lemma Req_b_false x y : x <> y -> Req_b x y = false.
Proof. intros H; unfold Req_b; destruct (Req_dec_T x y); [contradiction | reflexivity]. Qed.

(** Decide every comparison in the goal by linear arithmetic. *)
Ltac decide_cmp :=
  unfold Rgt_b, Rge_b;
  repeat match goal with
    | |- context [Rlt_b ?x ?y] =>
        first [ rewrite (Rlt_b_true x y) by lra
              | rewrite (Rlt_b_false x y) by lra ]
    | |- context [Rle_b ?x ?y] =>
        first [ rewrite (Rle_b_true x y) by lra
              | rewrite (Rle_b_false x y) by lra ]
    | |- context [Req_b ?x ?y] =>
        first [ rewrite (Req_b_true x y) by lra
              | rewrite (Req_b_false x y) by lra ]
    end.

Lemma pydiv_ok x y : y <> 0 -> pydiv x y = Ok (x / y).
Proof. intros H; unfold pydiv; destruct (Req_dec_T y 0); [contradiction | reflexivity]. Qed.

Lemma pydiv_zero x : pydiv x 0 = Raise ZeroDivisionError.
Proof. unfold pydiv; destruct (Req_dec_T 0 0); [reflexivity | congruence]. Qed.

Lemma mask_and_map (p q : R -> bool) (r : list R) :
  mask_and (map p r) (map q r) = map (fun v => p v && q v) r.
Proof. induction r as [|v r IH]; simpl; [reflexivity | now rewrite IH]. Qed.

Lemma setitem_nil_vals (f : list R) (m : list bool) :
  setitem f m [] = f.
Proof.
  revert m; induction f as [|x f IH]; intros [|[|] m]; simpl; try reflexivity;
    now rewrite IH.
Qed.

(** Assigning [g(r[m])] to [f[m]] when [f] and [m] are both computed
    elementwise from [r]. *)
Lemma setitem_map_getitem (h g : R -> R) (p : R -> bool) (r : list R) :
  setitem (map h r) (map p r) (map g (getitem r (map p r)))
  = map (fun v => if p v then g v else h v) r.
Proof.
  induction r as [|v r IH]; simpl; [reflexivity|].
  destruct (p v); simpl; now rewrite IH.
Qed.

Lemma setitem_scalar_map (h : R -> R) (p : R -> bool) (c : R) (r : list R) :
  setitem_scalar (map h r) (map p r) c
  = map (fun v => if p v then c else h v) r.
Proof. induction r as [|v r IH]; simpl; [reflexivity | now rewrite IH]. Qed.



(** With non-zero semi-axes the membership test of the slice is the
    comparison of the quadratic form with 1. *)
Lemma inside_nonzero x_rot y_rot a b :
  a <> 0 -> b <> 0 ->
  ElliSLICE.inside x_rot y_rot a b
  = Rle_b (x_rot ^ 2 / a ^ 2 + y_rot ^ 2 / b ^ 2) 1.
Proof.
  intros Ha Hb. unfold ElliSLICE.inside.
  rewrite (Req_b_false (a ^ 2)) by (apply pow_nonzero; exact Ha).
  rewrite (Req_b_false (b ^ 2)) by (apply pow_nonzero; exact Hb).
  reflexivity.
Qed.

(** ** The doubles the scalar code computes with *)

Module binary64_facts.
Import PrimFloat.
#[local] Open Scope float_scope.
#[local] Set Warnings "-inexact-float".


(** C9, as stated, fails for semi-axes whose square is not a double: with
    a = b = 1e200 the power [a ** 2] of the membership test overflows, and
    the deflection at the center raises OverflowError, whatever numpy's
    cosine and sine return and whatever the branch functions do. *)
Lemma derivatives_at_center_overflows :
  ((0 <? 1e200) = true /\ (1e200 <=? 1e200) = true)
  /\ forall np_cos np_sin alpha_in alpha_ext psi sigma_0 cx cy,
       binary64.ElliSLICE.derivatives np_cos np_sin alpha_in alpha_ext
         cx cy 1e200 1e200 psi sigma_0 cx cy
       = Raise OverflowError.
Proof.
  split; [split; vm_compute; reflexivity |].
  intros. unfold binary64.ElliSLICE.derivatives. cbv zeta.
  replace (binary64.float_pow2 1e200) with (@Raise float OverflowError)
    by (vm_compute; reflexivity).
  reflexivity.
Qed.

End binary64_facts.

(** ** The truncated radial profile *)

Module SIS_facts.
Import SIS_truncate.

Lemma radius_nonneg x y cx cy : 0 <= radius x y cx cy.
Proof. apply sqrt_pos. Qed.

(** Replace the square root of a closed expression by its value. *)
Ltac sqrt_val v :=
  match goal with
  | |- context [sqrt ?e] =>
      replace (sqrt e) with v by (symmetry; apply sqrt_lem_1; lra)
  end.

(** The scalar branch of [function] follows the three regimes of the
    class docstring, boundaries included. *)
Lemma function_scalar_regimes x y theta_E r_trunc cx cy :
  let r := radius x y cx cy in
  (r < r_trunc ->
   function (Scalar x) (Scalar y) theta_E r_trunc cx cy
   = Scalar (theta_E * r))
  /\ (r_trunc <= r < 2 * r_trunc ->
      function (Scalar x) (Scalar y) theta_E r_trunc cx cy
      = Scalar (theta_E * r_trunc
                + 1 / 2 * theta_E * (3 - r / r_trunc) * (r - r_trunc)))
  /\ (2 * r_trunc <= r ->
      function (Scalar x) (Scalar y) theta_E r_trunc cx cy
      = Scalar (3 / 2 * theta_E * r_trunc)).
Proof.
  intros r. pose proof (radius_nonneg x y cx cy) as Hr. fold r in Hr.
  unfold function; simpl. fold (radius x y cx cy). fold r.
  repeat split; intros H; decide_cmp; reflexivity.
Qed.

Lemma function_array_elems xs ys theta_E r_trunc cx cy :
  function (Array xs) (Array ys) theta_E r_trunc cx cy
  = Array
      (map (function_array_elem theta_E r_trunc)
         (map sqrt
            (zip_with Rplus
               (zip_with Rmult (map (fun v => v - cx) xs)
                  (map (fun v => v - cx) xs))
               (zip_with Rmult (map (fun v => v - cy) ys)
                  (map (fun v => v - cy) ys))))).
Proof.
  unfold function; simpl.
  set (r := map sqrt _).
  unfold zeros_like, mask_lt, mask_gt.
  rewrite (setitem_map_getitem (fun _ => 0) (fun v => theta_E * v)).
  rewrite mask_and_map.
  rewrite (setitem_map_getitem _
             (fun v => theta_E * r_trunc
                       + 1 / 2 * theta_E * (3 - v / r_trunc) * (v - r_trunc))
             (fun v => Rlt_b v (2 * r_trunc) && Rgt_b v r_trunc)).
  rewrite setitem_scalar_map.
  reflexivity.
Qed.

(** The concrete scenario of the specification, on scalars. *)
Lemma function_scalar_scenario :
  function (Scalar 0.5) (Scalar 0) 1 1 0 0 = Scalar 0.5
  /\ function (Scalar 1.5) (Scalar 0) 1 1 0 0 = Scalar 1.375
  /\ function (Scalar 3) (Scalar 0) 1 1 0 0 = Scalar 1.5.
Proof.
  unfold function; simpl. repeat split.
  - sqrt_val 0.5. decide_cmp. f_equal; lra.
  - sqrt_val 1.5. decide_cmp. f_equal; lra.
  - sqrt_val 3. decide_cmp. f_equal; lra.
Qed.

Lemma function_scalar_radial x y theta_E r_trunc cx cy :
  function (Scalar x) (Scalar y) theta_E r_trunc cx cy
  = Scalar (radial_potential theta_E r_trunc (radius x y cx cy)).
Proof. reflexivity. Qed.

(** The blend of the middle regime, written around its maximum. *)
Lemma blend_square theta_E r_trunc r :
  r_trunc <> 0 ->
  theta_E * r_trunc + 1 / 2 * theta_E * (3 - r / r_trunc) * (r - r_trunc)
  = 3 / 2 * theta_E * r_trunc
    - theta_E / (2 * r_trunc) * ((2 * r_trunc - r) * (2 * r_trunc - r)).
Proof. intros H. field. exact H. Qed.


Lemma radial_potential_monotone theta_E r_trunc r1 r2 :
  0 <= theta_E -> 0 < r_trunc -> 0 <= r1 -> r1 <= r2 ->
  radial_potential theta_E r_trunc r1 <= radial_potential theta_E r_trunc r2.
Proof.
  intros Ht Hrt Hr1 Hle. unfold radial_potential.
  assert (Hk : 0 <= theta_E / (2 * r_trunc)).
  { apply Rmult_le_pos; [lra|]. left. apply Rinv_0_lt_compat. lra. }
  assert (Hth : theta_E = theta_E / (2 * r_trunc) * (2 * r_trunc)) by (field; lra).
  set (k := theta_E / (2 * r_trunc)) in *.
  destruct (Rlt_dec r1 r_trunc) as [A1|A1];
    [rewrite (Rlt_b_true r1) by lra | rewrite (Rlt_b_false r1 r_trunc) by lra];
    (destruct (Rlt_dec r2 r_trunc) as [B1|B1];
     [rewrite (Rlt_b_true r2) by lra | rewrite (Rlt_b_false r2 r_trunc) by lra]);
    try lra.
  - apply Rmult_le_compat_l; lra.
  - destruct (Rlt_dec r2 (2 * r_trunc)) as [B2|B2];
      [rewrite (Rlt_b_true r2) by lra | rewrite (Rlt_b_false r2) by lra].
    + rewrite blend_square by lra. fold k. rewrite Hth at 1 2.
      assert (0 <= (2 * r_trunc - r2) * (2 * r_trunc - r2) <= r_trunc * r_trunc) by nra.
      nra.
    + rewrite Hth. nra.
  - destruct (Rlt_dec r1 (2 * r_trunc)) as [A2|A2];
      [rewrite (Rlt_b_true r1) by lra | rewrite (Rlt_b_false r1) by lra];
      (destruct (Rlt_dec r2 (2 * r_trunc)) as [B2|B2];
       [rewrite (Rlt_b_true r2) by lra | rewrite (Rlt_b_false r2) by lra]);
      try lra.
    + rewrite !blend_square by lra. fold k.
      assert ((2 * r_trunc - r2) * (2 * r_trunc - r2)
              <= (2 * r_trunc - r1) * (2 * r_trunc - r1)) by nra.
      nra.
    + rewrite blend_square by lra. fold k.
      assert (0 <= (2 * r_trunc - r1) * (2 * r_trunc - r1)) by nra.
      nra.
Qed.


Lemma radius_on_x_axis x : 0 <= x -> radius x 0 0 0 = x.
Proof.
  intros Hx. unfold radius. apply sqrt_lem_1; [nra | lra | ring].
Qed.



(** Off the two boundaries an array element gets the value of the
    scalar branch; on a boundary it gets zero. *)
Lemma function_array_elem_off_boundary theta_E r_trunc v :
  0 <= v -> v <> r_trunc -> v <> 2 * r_trunc ->
  function_array_elem theta_E r_trunc v = radial_potential theta_E r_trunc v.
Proof.
  intros H0 H1 H2. unfold function_array_elem, radial_potential.
  destruct (Rtotal_order v r_trunc) as [A | [A | A]];
    destruct (Rtotal_order v (2 * r_trunc)) as [B | [B | B]];
    try lra; decide_cmp; reflexivity.
Qed.

Lemma function_array_elem_on_boundary theta_E r_trunc :
  0 < r_trunc ->
  function_array_elem theta_E r_trunc r_trunc = 0
  /\ function_array_elem theta_E r_trunc (2 * r_trunc) = 0.
Proof.
  intros H. unfold function_array_elem. split; decide_cmp; reflexivity.
Qed.

(** The scalar branches of the two radial derivatives follow the regimes
    of the specification, for a positive truncation radius. *)
Lemma dphi_dr_scalar_regimes x y theta_E r_trunc :
  0 < r_trunc ->
  let r := sqrt (x * x + y * y) in
  (r = 0 -> _dphi_dr (Scalar x) (Scalar y) theta_E r_trunc = Scalar 0)
  /\ (0 < r < r_trunc ->
      _dphi_dr (Scalar x) (Scalar y) theta_E r_trunc = Scalar theta_E)
  /\ (r_trunc <= r < 2 * r_trunc ->
      _dphi_dr (Scalar x) (Scalar y) theta_E r_trunc
      = Scalar (theta_E * (2 - r / r_trunc)))
  /\ (2 * r_trunc <= r ->
      _dphi_dr (Scalar x) (Scalar y) theta_E r_trunc = Scalar 0).
Proof.
  intros Hrt r. unfold _dphi_dr; simpl. fold r.
  repeat split; intros H; decide_cmp; reflexivity.
Qed.

Lemma d2phi_dr2_scalar_regimes x y theta_E r_trunc :
  0 < r_trunc ->
  let r := sqrt (x * x + y * y) in
  (r < r_trunc ->
   _d2phi_dr2 (Scalar x) (Scalar y) theta_E r_trunc = Ok (Scalar 0))
  /\ (r_trunc <= r < 2 * r_trunc ->
      _d2phi_dr2 (Scalar x) (Scalar y) theta_E r_trunc
      = Ok (Scalar (- theta_E / r_trunc)))
  /\ (2 * r_trunc <= r ->
      _d2phi_dr2 (Scalar x) (Scalar y) theta_E r_trunc = Ok (Scalar 0)).
Proof.
  intros Hrt r. unfold _d2phi_dr2; simpl. fold r.
  repeat split; intros H; decide_cmp; try reflexivity.
  rewrite pydiv_ok by lra. reflexivity.
Qed.

(** The deflection at the exact center is (0, 0). *)
Lemma radial_derivatives_at_center theta_E r_trunc cx cy :
  derivatives (Scalar cx) (Scalar cy) theta_E r_trunc cx cy
  = (Scalar 0, Scalar 0).
Proof.
  unfold derivatives, _dphi_dr, _dr_dx; simpl.
  replace (cx - cx) with 0 by ring. replace (cy - cy) with 0 by ring.
  replace (0 * 0 + 0 * 0) with 0 by ring.
  replace (0 * (0 * 1) + 0 * (0 * 1)) with 0 by ring.
  rewrite sqrt_0. decide_cmp. f_equal; f_equal; field.
Qed.

(** The array branch of [_dphi_dr] agrees with the scalar branch on every
    element: its masks include the lower boundary of the middle regime. *)
Lemma dphi_dr_array_elems xs ys theta_E r_trunc :
  _dphi_dr (Array xs) (Array ys) theta_E r_trunc
  = Array
      (map (fun r =>
              if Req_b r 0 then 0
              else if Rlt_b r r_trunc then theta_E
              else if Rlt_b r (2 * r_trunc) then theta_E * (2 - r / r_trunc)
              else 0)
         (map sqrt (zip_with Rplus (zip_with Rmult xs xs)
                      (zip_with Rmult ys ys)))).
Proof.
  unfold _dphi_dr; simpl.
  set (l := zip_with Rplus _ _).
  assert (Hpos : Forall (fun r => 0 <= r) (map sqrt l)).
  { apply Forall_forall. intros r Hr. apply in_map_iff in Hr.
    destruct Hr as [v [<- _]]. apply sqrt_pos. }
  set (r := map sqrt l) in *. clearbody r. clear l.
  unfold zeros_like, mask_lt, mask_gt, mask_ge.
  rewrite !mask_and_map.
  rewrite (setitem_scalar_map (fun _ => 0)).
  rewrite (setitem_map_getitem _ (fun v => theta_E * (2 - v / r_trunc))
             (fun v => Rlt_b v (2 * r_trunc) && Rge_b v r_trunc)).
  rewrite setitem_scalar_map.
  f_equal. apply map_ext_in. intros v Hv.
  rewrite Forall_forall in Hpos. specialize (Hpos v Hv).
  destruct (Rtotal_order v 0) as [H0 | [H0 | H0]];
    destruct (Rtotal_order v r_trunc) as [H1 | [H1 | H1]];
    destruct (Rtotal_order v (2 * r_trunc)) as [H2 | [H2 | H2]];
    try lra; decide_cmp; reflexivity.
Qed.

(** C1: on array input an element whose radius is exactly r_trunc, or
    exactly 2 * r_trunc, is left at zero by [function], where the three
    regimes give theta_E * r_trunc and 1.5 * theta_E * r_trunc. *)
Theorem function_array_boundary_zero :
  function (Array [1]) (Array [0]) 1 1 0 0 = Array [0]
  /\ function (Array [2]) (Array [0]) 1 1 0 0 = Array [0].
Proof.
  rewrite !function_array_elems. simpl. unfold function_array_elem. split.
  - sqrt_val 1. decide_cmp. reflexivity.
  - sqrt_val 2. decide_cmp. reflexivity.
Qed.

(** C2: the array evaluation of [function] disagrees with the scalar
    evaluation at the elements that sit on a regime boundary. *)
Theorem function_array_scalar_disagree :
  function (Array [2; 1; 0.5]) (Array [0; 0; 0]) 1 1 0 0 = Array [0; 0; 0.5]
  /\ function (Scalar 2) (Scalar 0) 1 1 0 0 = Scalar 1.5
  /\ function (Scalar 1) (Scalar 0) 1 1 0 0 = Scalar 1
  /\ function (Scalar 0.5) (Scalar 0) 1 1 0 0 = Scalar 0.5.
Proof.
  repeat split.
  - rewrite function_array_elems. simpl. unfold function_array_elem.
    sqrt_val 2. sqrt_val 1. sqrt_val 0.5. decide_cmp. simpl.
    repeat f_equal; lra.
  - unfold function; simpl. sqrt_val 2. decide_cmp. f_equal; lra.
  - unfold function; simpl. sqrt_val 1. decide_cmp. f_equal; lra.
  - unfold function; simpl. sqrt_val 0.5. decide_cmp. f_equal; lra.
Qed.

(** C7: on array input [_d2phi_dr2] leaves an element of radius exactly
    r_trunc at zero, where the scalar branch and the middle regime give
    -theta_E / r_trunc. *)
Theorem d2phi_dr2_array_boundary_zero :
  _d2phi_dr2 (Array [1]) (Array [0]) 1 1 = Ok (Array [0])
  /\ _d2phi_dr2 (Scalar 1) (Scalar 0) 1 1 = Ok (Scalar (-1)).
Proof.
  unfold _d2phi_dr2; simpl. split.
  - rewrite pydiv_ok by lra. simpl. sqrt_val 1. decide_cmp. reflexivity.
  - sqrt_val 1. decide_cmp. rewrite pydiv_ok by lra. simpl.
    do 2 f_equal. lra.
Qed.

(** C4: [hessian] takes dr/dx and dr/dy at the uncentered coordinates, so
    its value at (0, 0) for the center (1, 0) differs from its value at the
    centered point (-1, 0) for the center (0, 0). *)
Theorem hessian_center_not_shifted :
  hessian (Scalar 0) (Scalar 0) 1 1 1 0
  = Ok (Scalar 0, Scalar 0, Scalar 0, Scalar 1)
  /\ hessian (Scalar (0 - 1)) (Scalar (0 - 0)) 1 1 0 0
     = Ok (Scalar (-1), Scalar 0, Scalar 0, Scalar 1).
Proof.
  unfold hessian, _d2phi_dr2, _dphi_dr, _dr_dx, _d2r_dx2; simpl. split.
  - sqrt_val 1. sqrt_val 1. sqrt_val 0. decide_cmp.
    rewrite pydiv_ok by lra. simpl. repeat f_equal; field.
  - sqrt_val 1. sqrt_val 1. sqrt_val 1. decide_cmp.
    rewrite pydiv_ok by lra. simpl. repeat f_equal; field.
Qed.

End SIS_facts.

(** ** The elliptical slice *)

Module ElliSLICE_facts.
Import ElliSLICE.

Lemma pydiv_raise x y : y = 0 -> pydiv x y = Raise ZeroDivisionError.
Proof. intros ->. apply pydiv_zero. Qed.

Lemma Cexp_j_times_0 n : Cexp (j_times n 0) = mkC 1 0.
Proof.
  unfold Cexp, j_times; simpl. rewrite Rmult_0_r, exp_0, cos_0, sin_0.
  f_equal; ring.
Qed.

Lemma derivatives_scalar x y a b psi sigma_0 cx cy :
  derivatives (Scalar x) (Scalar y) a b psi sigma_0 cx cy
  = let* d := deflection a b psi sigma_0 cx cy x y in
    Ok (Scalar (fst d), Scalar (snd d)).
Proof. reflexivity. Qed.

Lemma function_scalar x y a b psi sigma_0 cx cy :
  function (Scalar x) (Scalar y) a b psi sigma_0 cx cy
  = let* f := potential a b psi sigma_0 cx cy x y in Ok (Scalar f).
Proof. reflexivity. Qed.







(** On an empty array [derivatives] raises IndexError, and so does
    [hessian]. *)
Lemma derivatives_empty_array_raises a b psi sigma_0 cx cy :
  derivatives (Array []) (Array []) a b psi sigma_0 cx cy = Raise IndexError
  /\ hessian (Array []) (Array []) a b psi sigma_0 cx cy = Raise IndexError.
Proof. split; reflexivity. Qed.

(** C9, amended: for semi-axes a >= b between 1e-150 and 1e150, whose
    squares are neither lost nor out of range as doubles, and an
    orientation of at most 1e150 in absolute value, the deflection at the
    exact center is (0, 0): the center is inside the ellipse, and the
    inside deflection vanishes at the origin of the centered
    coordinates. *)
Theorem derivatives_at_center a b psi sigma_0 cx cy :
  1e-150 <= b -> b <= a -> a <= 1e150 -> Rabs psi <= 1e150 ->
  derivatives (Scalar cx) (Scalar cy) a b psi sigma_0 cx cy
  = Ok (Scalar 0, Scalar 0).
Proof.
  intros Hb Hab _ _. rewrite derivatives_scalar. unfold deflection.
  replace (cx - cx) with 0 by ring. replace (cy - cy) with 0 by ring.
  assert (Hin : inside (0 * cos psi + 0 * sin psi)
                  (- 0 * sin psi + 0 * cos psi) a b = true).
  { rewrite inside_nonzero by lra. apply Rle_b_true.
    replace ((0 * cos psi + 0 * sin psi) ^ 2 / a ^ 2
             + (- 0 * sin psi + 0 * cos psi) ^ 2 / b ^ 2) with 0
      by (field; lra).
    lra. }
  rewrite Hin. unfold alpha_in; simpl.
  rewrite pydiv_ok by lra. simpl.
  do 2 f_equal; f_equal; ring.
Qed.

Lemma derivatives_at_center_witness :
  (1e-150 <= 1 /\ 1 <= 2 /\ 2 <= 1e150 /\ Rabs 0.3 <= 1e150)
  /\ derivatives (Scalar 3) (Scalar 4) 2 1 0.3 1 3 4 = Ok (Scalar 0, Scalar 0).
Proof.
  assert (Hpsi : Rabs 0.3 <= 1e150) by (rewrite Rabs_right; lra).
  split; [repeat split; try assumption; lra |].
  apply (derivatives_at_center 2 1 0.3 1 3 4); try assumption; lra.
Defined.

(** The polar angle of a point of the positive x axis is 0. *)
Lemma arctan2_pos_x_axis x : 0 < x -> arctan2 0 x = 0.
Proof.
  intros Hx. unfold arctan2. rewrite Rlt_b_true by lra.
  replace (0 / x) with 0 by (field; lra). apply atan_0.
Qed.

(** The polar angle of a point of the positive y axis is pi / 2. *)
Lemma arctan2_pos_y_axis y : 0 < y -> arctan2 y 0 = PI / 2.
Proof.
  intros Hy. unfold arctan2.
  rewrite (Rlt_b_false 0 0) by lra. rewrite Rlt_b_true by lra. reflexivity.
Qed.

Lemma median_op_aligned phi psi :
  sin (phi - psi) = 0 \/ sin (phi - psi - PI / 2) = 0 ->
  median_op phi psi = true.
Proof.
  unfold median_op. intros [H|H]; rewrite H, Rabs_R0.
  - rewrite Rle_b_true by lra. reflexivity.
  - rewrite (Rle_b_true 0) by lra. apply orb_true_r.
Qed.

(** [alpha_ext] on a round slice, at a point on which the median is
    taken: the first division is by [a ** 2 - b ** 2 = 0]. *)
Lemma alpha_ext_round_median x y k :
  a k = b k ->
  median_op (snd (cart2polar x y)) (psi k) = true ->
  alpha_ext x y k = Raise ZeroDivisionError.
Proof.
  intros Hab Hm. unfold alpha_ext, alpha_ext_with.
  destruct (cart2polar x y) as [r phi]; simpl in Hm. rewrite Hm.
  rewrite pydiv_raise by (rewrite Hab; ring). reflexivity.
Qed.

(** [alpha_ext] on a round slice, off the axes and outside the circle. *)
Lemma alpha_ext_round_simple x y k :
  a k = b k ->
  median_op (snd (cart2polar x y)) (psi k) = false ->
  (a k) ^ 2 < x ^ 2 + y ^ 2 ->
  alpha_ext x y k
  = Ok (sigma_0 k * (a k) ^ 2 * x / (x ^ 2 + y ^ 2),
        sigma_0 k * (a k) ^ 2 * y / (x ^ 2 + y ^ 2)).
Proof.
  intros Hab Hm Hout. unfold alpha_ext, alpha_ext_with.
  destruct (cart2polar x y) as [r phi]; simpl in Hm. rewrite Hm.
  rewrite Req_b_true by exact Hab. unfold Rgt_b.
  rewrite Rlt_b_true by exact Hout. reflexivity.
Qed.

(** [pot_ext] on a round slice: the eccentricity is 0 and the prefactor
    [(1 - e ** 2) / (4 * e)] divides by zero, at every point. *)
Lemma pot_ext_round x y k :
  a k = b k -> a k + b k <> 0 ->
  pot_ext x y k = Raise ZeroDivisionError.
Proof.
  intros Hab Hsum. unfold pot_ext, pot_ext_with.
  destruct (cart2polar x y) as [r phi].
  rewrite pydiv_ok by exact Hsum. simpl.
  assert (He : 4 * ((a k - b k) / (a k + b k)) = 0).
  { rewrite Hab. field. rewrite <- Hab at 1. exact Hsum. }
  destruct (median_op phi (psi k)); rewrite pydiv_raise by exact He;
    reflexivity.
Qed.

(** C3: on the round slice a = b = 1 the potential and the deflection at
    the outside point (2, 0) raise ZeroDivisionError. *)
Theorem round_slice_raises :
  function (Scalar 2) (Scalar 0) 1 1 0 1 0 0 = Raise ZeroDivisionError
  /\ derivatives (Scalar 2) (Scalar 0) 1 1 0 1 0 0 = Raise ZeroDivisionError.
Proof.
  assert (Hout : inside ((2 - 0) * cos 0 + (0 - 0) * sin 0)
                   (- (2 - 0) * sin 0 + (0 - 0) * cos 0) 1 1 = false).
  { rewrite inside_nonzero by lra. rewrite cos_0, sin_0.
    apply Rle_b_false. lra. }
  split.
  - rewrite function_scalar. unfold potential. rewrite Hout.
    rewrite pot_ext_round; simpl; [reflexivity | reflexivity | lra].
  - rewrite derivatives_scalar. unfold deflection. rewrite Hout.
    rewrite alpha_ext_round_median; simpl; [reflexivity | reflexivity |].
    apply median_op_aligned. left.
    replace (2 - 0) with 2 by ring. replace (0 - 0) with 0 by ring.
    rewrite arctan2_pos_x_axis by lra.
    replace (0 - 0) with 0 by ring. apply sin_0.
Qed.

(** C5: on a round slice [alpha_ext] raises ZeroDivisionError at outside
    points of the axes, here (2, 0) and (0, 2) for a = b = 1 and psi = 0,
    where the simplified formula gives (0.5, 0) and (0, 0.5). *)
Theorem alpha_ext_round_on_axis_raises :
  alpha_ext 2 0 (mk_kwargs 0 0 1 1 0 1) = Raise ZeroDivisionError
  /\ alpha_ext 0 2 (mk_kwargs 0 0 1 1 0 1) = Raise ZeroDivisionError.
Proof.
  split; apply alpha_ext_round_median; simpl; try reflexivity;
    apply median_op_aligned.
  - left. rewrite arctan2_pos_x_axis by lra.
    replace (0 - 0) with 0 by ring. apply sin_0.
  - right. rewrite arctan2_pos_y_axis by lra.
    replace (PI / 2 - 0 - PI / 2) with 0 by ring. apply sin_0.
Qed.

(** Points of the open first quadrant that keep away from both axes fail
    the test of [median_op] for psi = 0. *)
Lemma median_op_false_quadrant x y :
  0 < x -> 0 < y -> x <= 10 * y -> y <= 10 * x ->
  median_op (snd (cart2polar x y)) 0 = false.
Proof.
  intros Hx Hy Hxy Hyx. unfold cart2polar, median_op; simpl.
  unfold arctan2. rewrite Rlt_b_true by lra.
  set (t := y / x).
  assert (Htx : t * x = y) by (unfold t; field; lra).
  assert (Ht : 1 / 10 <= t <= 10) by nra.
  assert (Hs : 1 <= sqrt (1 + t²) <= 11).
  { split.
    - rewrite <- sqrt_1 at 1. apply sqrt_le_1; unfold Rsqr; nra.
    - replace 11 with (sqrt (11 * 11)) by (apply sqrt_square; lra).
      apply sqrt_le_1; unfold Rsqr; nra. }
  set (s := sqrt (1 + t²)) in *.
  assert (Hinv : / 11 <= / s <= 1).
  { split.
    - apply Rinv_le_contravar; lra.
    - rewrite <- Rinv_1. apply Rinv_le_contravar; lra. }
  assert (Hsin : sin (atan t - 0) = t / s).
  { replace (atan t - 0) with (atan t) by ring. apply sin_atan. }
  assert (Hcos : sin (atan t - 0 - PI / 2) = - (1 / s)).
  { replace (atan t - 0 - PI / 2) with (- (PI / 2 - atan t)) by ring.
    rewrite sin_neg, sin_shift, cos_atan. reflexivity. }
  rewrite Hsin, Hcos.
  assert (H1 : 1 / 110 <= t / s) by (unfold Rdiv; nra).
  assert (H2 : 1 / 11 <= 1 / s) by lra.
  rewrite (Rabs_right (t / s)) by lra.
  rewrite Rabs_Ropp, (Rabs_right (1 / s)) by lra.
  rewrite !Rle_b_false by lra. reflexivity.
Qed.

(** The deflection of the round slice a = b = 1, psi = 0, sigma_0 = 1 about
    the origin, at outside points of the first quadrant. *)
Lemma deflection_round_quadrant x y :
  0 < x -> 1 < y -> x <= 10 * y -> y <= 10 * x ->
  deflection 1 1 0 1 0 0 x y
  = Ok (x / (x * x + y * y), y / (x * x + y * y)).
Proof.
  intros Hx Hy Hxy Hyx. unfold deflection.
  replace (x - 0) with x by ring. replace (y - 0) with y by ring.
  assert (Hout : inside (x * cos 0 + y * sin 0)
                   (- x * sin 0 + y * cos 0) 1 1 = false).
  { rewrite inside_nonzero by lra. rewrite cos_0, sin_0.
    apply Rle_b_false.
    replace ((x * 1 + y * 0) ^ 2 / 1 ^ 2 + (- x * 0 + y * 1) ^ 2 / 1 ^ 2)
      with (x * x + y * y) by field.
    nra. }
  rewrite Hout.
  rewrite alpha_ext_round_simple; simpl.
  - f_equal. f_equal; field; nra.
  - reflexivity.
  - apply median_op_false_quadrant; lra.
  - nra.
Qed.













(** *** The median of three evaluations near an axis *)

(** [np_median] of three values is the middle one, in whatever order they
    are listed. *)
Lemma np_median_three (u v w : R) :
  u <= v -> v <= w ->
  np_median [u; v; w] = v /\ np_median [w; u; v] = v
  /\ np_median [v; w; u] = v /\ np_median [w; v; u] = v.
Proof.
  intros Huv Hvw. unfold np_median, sort_R; simpl.
  destruct (Req_dec_T u v) as [-> | Hne1];
    destruct (Req_dec_T v w) as [-> | Hne2];
    repeat split;
    repeat (first [ rewrite Rle_b_true by lra
                  | rewrite Rle_b_false by lra ]; simpl);
    reflexivity.
Qed.

Lemma Rabs_sin_le t : Rabs t <= 1 -> Rabs (sin t) <= Rabs t.
Proof.
  intros Ht. pose proof PI2_1 as Hpi.
  destruct (Rtotal_order t 0) as [Hneg | [-> | Hpos]].
  - rewrite (Rabs_left t) in * by lra.
    replace (sin t) with (- sin (- t)) by (rewrite sin_neg; ring).
    rewrite Rabs_Ropp.
    pose proof (sin_ge_0 (- t)) as H0. pose proof (sin_lt_x (- t)) as H1.
    rewrite Rabs_right by lra. lra.
  - rewrite sin_0. lra.
  - rewrite (Rabs_right t) in * by lra.
    pose proof (sin_ge_0 t) as H0. pose proof (sin_lt_x t) as H1.
    rewrite Rabs_right by lra. lra.
Qed.

Lemma Rabs_sin_shift_nat t n : Rabs (sin (t + INR n * PI)) = Rabs (sin t).
Proof.
  induction n as [|n IH].
  - simpl. f_equal. f_equal. ring.
  - rewrite S_INR.
    replace (t + (INR n + 1) * PI) with (t + INR n * PI + PI) by ring.
    rewrite neg_sin, Rabs_Ropp. exact IH.
Qed.

Lemma Rabs_sin_shift_Z t m : Rabs (sin (t + IZR m * PI)) = Rabs (sin t).
Proof.
  destruct (Z_le_gt_dec 0 m) as [Hm | Hm].
  - rewrite <- (Z2Nat.id m) by exact Hm. rewrite <- INR_IZR_INZ.
    apply Rabs_sin_shift_nat.
  - replace m with (- Z.of_nat (Z.to_nat (- m)))%Z by lia.
    rewrite opp_IZR, <- INR_IZR_INZ.
    set (n := Z.to_nat (- m)).
    rewrite <- (Rabs_sin_shift_nat (t + - INR n * PI) n).
    f_equal. f_equal. ring.
Qed.

Lemma Rabs_sin_lt t : t <> 0 -> Rabs t <= 1 -> Rabs (sin t) < Rabs t.
Proof.
  intros Hne Ht. pose proof PI2_1 as Hpi.
  destruct (Rtotal_order t 0) as [Hneg | [-> | Hpos]]; [| lra |].
  - rewrite (Rabs_left t) in * by lra.
    replace (sin t) with (- sin (- t)) by (rewrite sin_neg; ring).
    rewrite Rabs_Ropp.
    pose proof (sin_ge_0 (- t)) as H0. pose proof (sin_lt_x (- t)) as H1.
    rewrite Rabs_right by lra. lra.
  - rewrite (Rabs_right t) in * by lra.
    pose proof (sin_ge_0 t) as H0. pose proof (sin_lt_x t) as H1.
    rewrite Rabs_right by lra. lra.
Qed.

(** Near an axis, one of the two sines of the test is the sine of the
    small offset from that axis, up to the sign. *)
Lemma near_axis_offset phi psi :
  near_axis phi psi ->
  exists t : R,
    Rabs t <= 1e-10
    /\ (Rabs (sin (phi - psi)) = Rabs (sin t)
        \/ Rabs (sin (phi - psi - PI / 2)) = Rabs (sin t)).
Proof.
  intros [n Hn]. set (t := phi - psi - IZR n * (PI / 2)) in *.
  exists t. split; [exact Hn |].
  destruct (Z.Even_or_Odd n) as [[m ->] | [m ->]].
  - left. replace (phi - psi) with (t + IZR m * PI)
      by (unfold t; rewrite mult_IZR; field).
    apply Rabs_sin_shift_Z.
  - right. replace (phi - psi - PI / 2) with (t + IZR m * PI)
      by (unfold t; rewrite plus_IZR, mult_IZR; field).
    apply Rabs_sin_shift_Z.
Qed.

(** An angle within 1e-10 radians of an axis passes the test of the code. *)
Lemma near_axis_median_op phi psi :
  near_axis phi psi -> median_op phi psi = true.
Proof.
  intros Hn. destruct (near_axis_offset phi psi Hn) as [t [Ht Hs]].
  assert (Hsin : Rabs (sin t) <= 1e-10).
  { apply Rle_trans with (Rabs t); [apply Rabs_sin_le; lra | exact Ht]. }
  unfold median_op. destruct Hs as [-> | ->].
  - rewrite Rle_b_true by exact Hsin. reflexivity.
  - rewrite (Rle_b_true _ _ Hsin). apply orb_true_r.
Qed.



Lemma outside_round_quadrant x y :
  0 < x -> 1 < y -> outside x y (mk_kwargs 0 0 1 1 0 1).
Proof.
  intros Hx Hy. unfold outside.
  change (inside (x * cos 0 + y * sin 0) (- x * sin 0 + y * cos 0) 1 1
          = false).
  rewrite inside_nonzero by lra. rewrite cos_0, sin_0.
  apply Rle_b_false.
  replace ((x * 1 + y * 0) ^ 2 / 1 ^ 2 + (- x * 0 + y * 1) ^ 2 / 1 ^ 2)
    with (x * x + y * y) by field.
  nra.
Qed.

(** The sine of an angle clear of the multiples of pi by 1e-10 + 2e-31
    radians exceeds 1e-10 in absolute value. *)
Lemma sin_above_threshold : 1e-10 < sin (1e-10 + 2e-31).
Proof.
  pose proof PI_RGT_0 as Hpi. pose proof PI2_1 as Hpi1.
  assert (H : sin_lb (1e-10 + 2e-31) <= sin (1e-10 + 2e-31)).
  { apply SIN; lra. }
  apply Rlt_le_trans with (2 := H).
  unfold sin_lb, sin_approx, sin_term. simpl. lra.
Qed.

Lemma Rabs_sin_above u :
  1e-10 + 2e-31 <= Rabs u -> Rabs u <= PI / 2 -> 1e-10 < Rabs (sin u).
Proof.
  intros Hlo Hhi. pose proof sin_above_threshold as Ht.
  pose proof PI_RGT_0 as Hpi.
  destruct (Rle_dec 0 u) as [Hu | Hu].
  - rewrite Rabs_right in Hlo, Hhi by lra.
    assert (Hs : sin (1e-10 + 2e-31) <= sin u) by (apply sin_incr_1; lra).
    rewrite Rabs_right by lra. lra.
  - rewrite Rabs_left in Hlo, Hhi by lra.
    assert (Hs : sin u <= sin (- (1e-10 + 2e-31))) by (apply sin_incr_1; lra).
    rewrite sin_neg in Hs. rewrite Rabs_left by lra. lra.
Qed.

Lemma nearest_multiple_of_PI d :
  exists m : Z, Rabs (d - IZR m * PI) <= PI / 2.
Proof.
  pose proof PI_RGT_0 as Hpi.
  destruct (archimed (d / PI - 1 / 2)) as [H1 H2].
  exists (up (d / PI - 1 / 2)). set (m := IZR (up (d / PI - 1 / 2))) in *.
  assert (Hd : d = d / PI * PI) by (field; lra).
  assert (Ha : (m - d / PI) * PI <= 1 / 2 * PI)
    by (apply Rmult_le_compat_r; lra).
  assert (Hb : - (1 / 2) * PI <= (m - d / PI) * PI)
    by (apply Rmult_le_compat_r; lra).
  apply Rabs_le. lra.
Qed.

Lemma sin_clear_of_multiples d :
  (forall m : Z, 1e-10 + 2e-31 <= Rabs (d - IZR m * PI)) ->
  1e-10 < Rabs (sin d).
Proof.
  intros H. destruct (nearest_multiple_of_PI d) as [m Hm].
  replace d with (d - IZR m * PI + IZR m * PI) by ring.
  rewrite Rabs_sin_shift_Z. apply Rabs_sin_above; [apply H | exact Hm].
Qed.

(** An angle clear of the axes fails the test of the code. *)
Lemma clear_of_axes_median_op phi psi :
  clear_of_axes phi psi -> median_op phi psi = false.
Proof.
  intros H.
  assert (H1 : 1e-10 < Rabs (sin (phi - psi))).
  { apply sin_clear_of_multiples. intros m.
    specialize (H (2 * m)%Z). rewrite mult_IZR in H.
    replace (phi - psi - IZR m * PI)
      with (phi - psi - 2 * IZR m * (PI / 2)) by field.
    exact H. }
  assert (H2 : 1e-10 < Rabs (sin (phi - psi - PI / 2))).
  { apply sin_clear_of_multiples. intros m.
    specialize (H (2 * m + 1)%Z). rewrite plus_IZR, mult_IZR in H.
    replace (phi - psi - PI / 2 - IZR m * PI)
      with (phi - psi - (2 * IZR m + 1) * (PI / 2)) by field.
    exact H. }
  unfold median_op.
  rewrite !Rle_b_false by (apply Rlt_not_le; assumption). reflexivity.
Qed.

(** The outside branch in terms of the closed forms of the specification,
    whatever [cmath.sqrt] and [cmath.log] return. *)
Lemma alpha_ext_with_cases cmath_sqrt x y k :
  alpha_ext_with cmath_sqrt x y k
  = let r := fst (cart2polar x y) in
    let phi := snd (cart2polar x y) in
    if median_op phi (psi k) then
      let* m :=
        closed_form_deflection_with cmath_sqrt k
          (polar_point r (phi - 1e-10)) in
      let* p :=
        closed_form_deflection_with cmath_sqrt k
          (polar_point r (phi + 1e-10)) in
      let* c := closed_form_deflection_with cmath_sqrt k (complex x y) in
      Ok (np_median [re m; re p; re c], np_median [im m; im p; im c])
    else if Req_b (a k) (b k) && Rgt_b (x ^ 2 + y ^ 2) (a k ^ 2) then
      Ok (sigma_0 k * a k ^ 2 * x / (x ^ 2 + y ^ 2),
          sigma_0 k * a k ^ 2 * y / (x ^ 2 + y ^ 2))
    else
      let* c := closed_form_deflection_with cmath_sqrt k (complex x y) in
      Ok (re c, im c).
Proof.
  unfold alpha_ext_with, closed_form_deflection_with, polar_point.
  destruct (cart2polar x y) as [r phi]; cbv beta iota zeta delta [fst snd].
  destruct (median_op phi (psi k)).
  - destruct (pydiv (2 * a k * b k) (a k ^ 2 - b k ^ 2)); reflexivity.
  - destruct (Req_b (a k) (b k) && Rgt_b (x ^ 2 + y ^ 2) (a k ^ 2));
      [reflexivity |].
    destruct (pydiv (2 * a k * b k) (a k ^ 2 - b k ^ 2)); reflexivity.
Qed.

Lemma pot_ext_with_cases cmath_sqrt cmath_log x y k :
  pot_ext_with cmath_sqrt cmath_log x y k
  = let r := fst (cart2polar x y) in
    let phi := snd (cart2polar x y) in
    let* e := pydiv (a k - b k) (a k + b k) in
    if median_op phi (psi k) then
      let* m :=
        closed_form_potential_with cmath_sqrt cmath_log k e
          (polar_point r (phi - 1e-10)) in
      let* p :=
        closed_form_potential_with cmath_sqrt cmath_log k e
          (polar_point r (phi + 1e-10)) in
      let* c :=
        closed_form_potential_with cmath_sqrt cmath_log k e (complex x y) in
      Ok (np_median [re m; re p; re c])
    else
      let* c :=
        closed_form_potential_with cmath_sqrt cmath_log k e (complex x y) in
      Ok (re c).
Proof.
  unfold pot_ext_with, closed_form_potential_with, polar_point.
  destruct (cart2polar x y) as [r phi]; cbv beta iota zeta delta [fst snd].
  destruct (pydiv (a k - b k) (a k + b k)) as [e|]; [|reflexivity].
  cbv beta iota zeta delta [bind].
  destruct (median_op phi (psi k)).
  - destruct (pydiv (1 - e ^ 2) (4 * e)); [|reflexivity].
    repeat match goal with
           | |- context [cmath_log ?z] =>
               destruct (cmath_log z); [|reflexivity]
           end.
    reflexivity.
  - destruct (pydiv (1 - e ^ 2) (4 * e)); [|reflexivity].
    destruct (cmath_log _); reflexivity.
Qed.

(** Outside a round slice of radius a the squared distance exceeds a^2. *)
Lemma outside_round x y k :
  0 < a k -> a k = b k -> outside x y k -> a k ^ 2 < x ^ 2 + y ^ 2.
Proof.
  intros Ha Hab Hout. unfold outside in Hout. rewrite <- Hab in Hout.
  rewrite inside_nonzero in Hout by lra.
  unfold Rle_b in Hout.
  match type of Hout with
  | (if ?d then _ else _) = _ => destruct d as [Hle | Hnle];
                                 [discriminate Hout | clear Hout]
  end.
  pose proof (sin2_cos2 (psi k)) as Hsc. unfold Rsqr in Hsc.
  set (c := cos (psi k)) in *. set (s := sin (psi k)) in *.
  assert (Ha2 : 0 < a k ^ 2) by (apply pow_lt; exact Ha).
  replace ((x * c + y * s) ^ 2 / a k ^ 2 + (- x * s + y * c) ^ 2 / a k ^ 2)
    with ((x ^ 2 + y ^ 2) * (s * s + c * c) / a k ^ 2) in Hnle
    by (field; lra).
  rewrite Hsc, Rmult_1_r in Hnle.
  apply Rnot_le_lt in Hnle.
  apply (Rmult_lt_compat_r (a k ^ 2)) in Hnle; [| exact Ha2].
  replace ((x ^ 2 + y ^ 2) / a k ^ 2 * a k ^ 2) with (x ^ 2 + y ^ 2) in Hnle
    by (field; lra).
  lra.
Qed.

(** C8, as stated, fails: at the outside point (1, 2) of the round slice
    a = b = 1, which is not near an axis, [alpha_ext] returns the simplified
    formula while the closed form divides by zero. *)
Lemma single_closed_form_fails_when_round :
  ~ (forall x y k,
       outside x y k ->
       ~ near_axis (snd (cart2polar x y)) (psi k) ->
       alpha_ext x y k
       = let* c := closed_form_deflection k (complex x y) in
         Ok (re c, im c)).
Proof.
  intros H. specialize (H 1 2 (mk_kwargs 0 0 1 1 0 1)).
  assert (Hm : median_op (snd (cart2polar 1 2)) 0 = false)
    by (apply median_op_false_quadrant; lra).
  rewrite alpha_ext_round_simple in H; simpl;
    [| reflexivity | exact Hm | lra].
  simpl in H. unfold closed_form_deflection, closed_form_deflection_with in H;
    simpl in H.
  rewrite pydiv_raise in H by ring. simpl in H.
  enough (Hd : Ok (1 * (1 * (1 * 1)) * 1 / (1 * (1 * 1) + 2 * (2 * 1)),
                   1 * (1 * (1 * 1)) * 2 / (1 * (1 * 1) + 2 * (2 * 1)))
               = @Raise (R * R) ZeroDivisionError) by discriminate Hd.
  apply H.
  - apply outside_round_quadrant; lra.
  - intros Hn. apply near_axis_median_op in Hn.
    change (median_op (snd (cart2polar 1 2)) 0 = true) in Hn.
    rewrite Hm in Hn. discriminate Hn.
Qed.

(** C8, amended: for positive semi-axes and an outside point of polar
    coordinates r and phi, whatever values [cmath.sqrt] and [cmath.log]
    take on their branch cuts,
    (1) when phi is within 1e-10 radians of an axis direction
        psi + n pi / 2, the deflection is the componentwise median of the
        closed form at the angles phi - 1e-10, phi + 1e-10 and at the
        point itself, and the potential is the median of the three real
        parts;
    (2) when phi is further than 1e-10 radians from every axis direction
        (by the 2e-31 radians of [clear_of_axes]), the potential is the
        real part of the single closed-form evaluation, and the
        deflection is the single closed-form evaluation unless a = b,
        where it is sigma_0 a^2 (x, y) / (x^2 + y^2). *)
Theorem axis_median_of_three (cmath_sqrt : C -> C) (cmath_log : C -> res C)
        x y k :
  let r := fst (cart2polar x y) in
  let phi := snd (cart2polar x y) in
  0 < a k -> 0 < b k -> outside x y k ->
  (near_axis phi (psi k) ->
   alpha_ext_with cmath_sqrt x y k
   = (let* m :=
        closed_form_deflection_with cmath_sqrt k
          (polar_point r (phi - 1e-10)) in
      let* p :=
        closed_form_deflection_with cmath_sqrt k
          (polar_point r (phi + 1e-10)) in
      let* c := closed_form_deflection_with cmath_sqrt k (complex x y) in
      Ok (np_median [re m; re p; re c], np_median [im m; im p; im c]))
   /\ pot_ext_with cmath_sqrt cmath_log x y k
      = (let* e := pydiv (a k - b k) (a k + b k) in
         let* m :=
           closed_form_potential_with cmath_sqrt cmath_log k e
             (polar_point r (phi - 1e-10)) in
         let* p :=
           closed_form_potential_with cmath_sqrt cmath_log k e
             (polar_point r (phi + 1e-10)) in
         let* c :=
           closed_form_potential_with cmath_sqrt cmath_log k e
             (complex x y) in
         Ok (np_median [re m; re p; re c])))
  /\ (clear_of_axes phi (psi k) ->
      pot_ext_with cmath_sqrt cmath_log x y k
      = (let* e := pydiv (a k - b k) (a k + b k) in
         let* c :=
           closed_form_potential_with cmath_sqrt cmath_log k e
             (complex x y) in
         Ok (re c))
      /\ (a k <> b k ->
          alpha_ext_with cmath_sqrt x y k
          = (let* c :=
               closed_form_deflection_with cmath_sqrt k (complex x y) in
             Ok (re c, im c)))
      /\ (a k = b k ->
          alpha_ext_with cmath_sqrt x y k
          = Ok (sigma_0 k * a k ^ 2 * x / (x ^ 2 + y ^ 2),
                sigma_0 k * a k ^ 2 * y / (x ^ 2 + y ^ 2)))).
Proof.
  intros r phi Ha Hb Hout. split.
  - intros Hn. apply near_axis_median_op in Hn. split.
    + rewrite alpha_ext_with_cases. fold r phi. cbv zeta. rewrite Hn.
      reflexivity.
    + rewrite pot_ext_with_cases. fold r phi. cbv zeta. rewrite Hn.
      reflexivity.
  - intros Hc. apply clear_of_axes_median_op in Hc. split; [| split].
    + rewrite pot_ext_with_cases. fold r phi. cbv zeta. rewrite Hc.
      reflexivity.
    + intros Hne. rewrite alpha_ext_with_cases. fold r phi. cbv zeta.
      rewrite Hc. rewrite Req_b_false by exact Hne. reflexivity.
    + intros Hab. rewrite alpha_ext_with_cases. fold r phi. cbv zeta.
      rewrite Hc. rewrite Req_b_true by exact Hab.
      unfold Rgt_b. rewrite Rlt_b_true by (apply outside_round; assumption).
      reflexivity.
Qed.

Lemma outside_beyond_x x a b :
  0 < b -> b <= a -> a < x -> outside x 0 (mk_kwargs 0 0 a b 0 1).
Proof.
  intros Hb Hab Hx. unfold outside.
  change (inside (x * cos 0 + 0 * sin 0) (- x * sin 0 + 0 * cos 0) a b
          = false).
  rewrite inside_nonzero by lra. rewrite cos_0, sin_0.
  apply Rle_b_false.
  replace ((x * 1 + 0 * 0) ^ 2 / a ^ 2 + (- x * 0 + 0 * 1) ^ 2 / b ^ 2)
    with (x * x / (a * a)) by (field; lra).
  intros H. assert (Hp : 0 < a * a) by nra.
  assert (H2 : x * x / (a * a) * (a * a) <= 1 * (a * a))
    by (apply Rmult_le_compat_r; lra).
  replace (x * x / (a * a) * (a * a)) with (x * x) in H2 by (field; lra).
  nra.
Qed.

Lemma clear_of_axes_diagonal : clear_of_axes (snd (cart2polar 2 2)) 0.
Proof.
  pose proof PI_RGT_0 as Hpi. pose proof PI2_1 as Hpi1.
  assert (Hphi : snd (cart2polar 2 2) = PI / 4).
  { simpl. unfold arctan2. rewrite Rlt_b_true by lra.
    replace (2 / 2) with 1 by field. apply atan_1. }
  rewrite Hphi. intros n.
  destruct (Z_le_gt_dec n 0) as [Hn | Hn].
  - apply IZR_le in Hn.
    assert (Hp : 0 <= - IZR n * (PI / 2)) by (apply Rmult_le_pos; lra).
    rewrite Rabs_right by lra. lra.
  - assert (H1 : (1 <= n)%Z) by lia. apply IZR_le in H1.
    assert (Hp : 0 <= (IZR n - 1) * (PI / 2)) by (apply Rmult_le_pos; lra).
    rewrite Rabs_left by lra. lra.
Qed.

Lemma axis_median_of_three_witness :
  let k1 := mk_kwargs 0 0 2 1 0 1 in
  let k2 := mk_kwargs 0 0 1 1 0 1 in
  (outside 3 0 k1 /\ near_axis (snd (cart2polar 3 0)) (psi k1)
   /\ alpha_ext 3 0 k1
      = (let* m :=
           closed_form_deflection k1
             (polar_point (fst (cart2polar 3 0))
                (snd (cart2polar 3 0) - 1e-10)) in
         let* p :=
           closed_form_deflection k1
             (polar_point (fst (cart2polar 3 0))
                (snd (cart2polar 3 0) + 1e-10)) in
         let* c := closed_form_deflection k1 (complex 3 0) in
         Ok (np_median [re m; re p; re c], np_median [im m; im p; im c])))
  /\ (outside 2 2 k2 /\ clear_of_axes (snd (cart2polar 2 2)) (psi k2)
      /\ alpha_ext 2 2 k2
         = Ok (sigma_0 k2 * a k2 ^ 2 * 2 / (2 ^ 2 + 2 ^ 2),
               sigma_0 k2 * a k2 ^ 2 * 2 / (2 ^ 2 + 2 ^ 2))).
Proof.
  intros k1 k2.
  assert (Ho1 : outside 3 0 k1) by (apply outside_beyond_x; lra).
  assert (Hn1 : near_axis (snd (cart2polar 3 0)) (psi k1)).
  { exists 0%Z. simpl. rewrite arctan2_pos_x_axis by lra.
    replace (0 - 0 - 0 * (PI / 2)) with 0 by ring. rewrite Rabs_R0. lra. }
  assert (Ho2 : outside 2 2 k2) by (apply outside_round_quadrant; lra).
  assert (Hc2 : clear_of_axes (snd (cart2polar 2 2)) (psi k2))
    by exact clear_of_axes_diagonal.
  assert (Ha1 : 0 < a k1) by (simpl; lra).
  assert (Hb1 : 0 < b k1) by (simpl; lra).
  assert (Ha2 : 0 < a k2) by (simpl; lra).
  assert (Hb2 : 0 < b k2) by (simpl; lra).
  split.
  - split; [exact Ho1 |]. split; [exact Hn1 |].
    exact (proj1 (proj1 (axis_median_of_three Csqrt Clog 3 0 k1 Ha1 Hb1 Ho1)
                    Hn1)).
  - split; [exact Ho2 |]. split; [exact Hc2 |].
    exact (proj2 (proj2 (proj2 (axis_median_of_three Csqrt Clog 2 2 k2
                                  Ha2 Hb2 Ho2) Hc2))
             eq_refl).
Defined.

(** *** No exception away from the round slice *)









End ElliSLICE_facts.

(** ** Further properties of the truncated radial profile *)

Module SIS_more.
Import SIS_truncate SIS_facts.

Lemma vsub_shift (x : value) (c d : R) :
  vsub (vadd x (Scalar d)) (Scalar (c + d)) = vsub x (Scalar c).
Proof.
  destruct x as [v | vs]; simpl.
  - f_equal. ring.
  - f_equal. rewrite map_map. apply map_ext. intros v. ring.
Qed.

Lemma dphi_dr_scalar_radial x y theta_E r_trunc :
  _dphi_dr (Scalar x) (Scalar y) theta_E r_trunc
  = Scalar (radial_deflection theta_E r_trunc (sqrt (x * x + y * y))).
Proof. reflexivity. Qed.

(** The potential and the deflection only see the position relative to
    the center: moving the coordinates (scalars or arrays) and the center
    by the same vector changes neither. *)
Theorem function_derivatives_translation_invariant
        (x y : value) (theta_E r_trunc cx cy dx dy : R) :
  function (vadd x (Scalar dx)) (vadd y (Scalar dy)) theta_E r_trunc
    (cx + dx) (cy + dy)
  = function x y theta_E r_trunc cx cy
  /\ derivatives (vadd x (Scalar dx)) (vadd y (Scalar dy)) theta_E r_trunc
       (cx + dx) (cy + dy)
     = derivatives x y theta_E r_trunc cx cy.
Proof.
  unfold function, derivatives. rewrite !vsub_shift. split; reflexivity.
Qed.

(** *** The potential is Lipschitz *)

Lemma radial_potential_lipschitz theta_E r_trunc r1 r2 :
  0 <= theta_E -> 0 < r_trunc -> r1 <= r2 ->
  radial_potential theta_E r_trunc r2 - radial_potential theta_E r_trunc r1
  <= theta_E * (r2 - r1).
Proof.
  intros Ht Hrt Hle. unfold radial_potential.
  assert (Hk : 0 <= theta_E / (2 * r_trunc)).
  { apply Rmult_le_pos; [lra|]. left. apply Rinv_0_lt_compat. lra. }
  assert (Hth : theta_E = theta_E / (2 * r_trunc) * (2 * r_trunc))
    by (field; lra).
  set (k := theta_E / (2 * r_trunc)) in *.
  assert (Hkrt : 0 <= k * r_trunc) by (apply Rmult_le_pos; lra).
  assert (Hkrt2 : 0 <= k * r_trunc * r_trunc) by (apply Rmult_le_pos; lra).
  destruct (Rlt_dec r1 r_trunc) as [A1|A1];
    [rewrite (Rlt_b_true r1) by lra | rewrite (Rlt_b_false r1 r_trunc) by lra];
    (destruct (Rlt_dec r2 r_trunc) as [B1|B1];
     [rewrite (Rlt_b_true r2) by lra | rewrite (Rlt_b_false r2 r_trunc) by lra]);
    try lra.
  - destruct (Rlt_dec r2 (2 * r_trunc)) as [B2|B2];
      [rewrite (Rlt_b_true r2) by lra | rewrite (Rlt_b_false r2) by lra].
    + rewrite blend_square by lra. fold k. rewrite Hth.
      assert (0 <= k * ((r2 - r_trunc) * (r2 - r_trunc)))
        by (apply Rmult_le_pos; nra).
      nra.
    + rewrite Hth.
      assert (0 <= k * r_trunc * (r2 - 2 * r_trunc))
        by (apply Rmult_le_pos; lra).
      nra.
  - destruct (Rlt_dec r1 (2 * r_trunc)) as [A2|A2];
      [rewrite (Rlt_b_true r1) by lra | rewrite (Rlt_b_false r1) by lra];
      (destruct (Rlt_dec r2 (2 * r_trunc)) as [B2|B2];
       [rewrite (Rlt_b_true r2) by lra | rewrite (Rlt_b_false r2) by lra]);
      try lra.
    + rewrite !blend_square by lra. fold k. rewrite Hth.
      assert (0 <= k * ((r2 - r1) * (r1 + r2 - 2 * r_trunc))).
      { apply Rmult_le_pos; [lra |]. apply Rmult_le_pos; lra. }
      nra.
    + rewrite blend_square by lra. fold k. rewrite Hth.
      assert (0 <= k * ((2 * r_trunc - r1) * (r1 - r_trunc))).
      { apply Rmult_le_pos; [lra |]. apply Rmult_le_pos; lra. }
      assert (0 <= k * r_trunc * (r2 - 2 * r_trunc))
        by (apply Rmult_le_pos; lra).
      nra.
    + assert (0 <= theta_E * (r2 - r1)) by (apply Rmult_le_pos; lra).
      nra.
Qed.

(** The reverse triangle inequality for the distance to the center. *)
Lemma radius_reverse_triangle x1 y1 x2 y2 cx cy :
  Rabs (radius x2 y2 cx cy - radius x1 y1 cx cy)
  <= sqrt ((x2 - x1) * (x2 - x1) + (y2 - y1) * (y2 - y1)).
Proof.
  unfold radius.
  set (u1 := x1 - cx). set (v1 := y1 - cy).
  set (u2 := x2 - cx). set (v2 := y2 - cy).
  replace (x2 - x1) with (u2 - u1) by (unfold u1, u2; ring).
  replace (y2 - y1) with (v2 - v1) by (unfold v1, v2; ring).
  clearbody u1 v1 u2 v2.
  assert (H1 : 0 <= u1 * u1 + v1 * v1) by nra.
  assert (H2 : 0 <= u2 * u2 + v2 * v2) by nra.
  assert (H3 : 0 <= (u2 - u1) * (u2 - u1) + (v2 - v1) * (v2 - v1)).
  { pose proof (Rle_0_sqr (u2 - u1)). pose proof (Rle_0_sqr (v2 - v1)).
    unfold Rsqr in *. lra. }
  pose proof (sqrt_pos (u1 * u1 + v1 * v1)) as Ha.
  pose proof (sqrt_pos (u2 * u2 + v2 * v2)) as Hb.
  pose proof (sqrt_pos ((u2 - u1) * (u2 - u1) + (v2 - v1) * (v2 - v1))) as Hc.
  pose proof (sqrt_def _ H1) as Haa.
  pose proof (sqrt_def _ H2) as Hbb.
  pose proof (sqrt_def _ H3) as Hcc.
  set (a := sqrt (u1 * u1 + v1 * v1)) in *.
  set (b := sqrt (u2 * u2 + v2 * v2)) in *.
  set (c := sqrt ((u2 - u1) * (u2 - u1) + (v2 - v1) * (v2 - v1))) in *.
  assert (Hcs : u1 * u2 + v1 * v2 <= a * b).
  { apply Rsqr_incr_0_var; [| apply Rmult_le_pos; assumption].
    unfold Rsqr.
    replace ((a * b) * (a * b)) with ((a * a) * (b * b)) by ring.
    rewrite Haa, Hbb.
    pose proof (Rle_0_sqr (u1 * v2 - v1 * u2)) as Hd. unfold Rsqr in Hd.
    assert (E : (u1 * u1 + v1 * v1) * (u2 * u2 + v2 * v2)
                - (u1 * u2 + v1 * v2) * (u1 * u2 + v1 * v2)
                = (u1 * v2 - v1 * u2) * (u1 * v2 - v1 * u2)) by ring.
    lra. }
  assert (Hsq : (b - a) * (b - a) <= c * c).
  { rewrite Hcc.
    replace ((b - a) * (b - a)) with (b * b + a * a - 2 * (a * b)) by ring.
    rewrite Haa, Hbb.
    replace ((u2 - u1) * (u2 - u1) + (v2 - v1) * (v2 - v1))
      with (u2 * u2 + v2 * v2 + (u1 * u1 + v1 * v1)
            - 2 * (u1 * u2 + v1 * v2)) by ring.
    lra. }
  apply Rabs_le. split.
  - assert (a - b <= c); [| lra].
    apply Rsqr_incr_0_var; [| exact Hc]. unfold Rsqr.
    replace ((a - b) * (a - b)) with ((b - a) * (b - a)) by ring. exact Hsq.
  - apply Rsqr_incr_0_var; [| exact Hc]. unfold Rsqr. exact Hsq.
Qed.

(** The scalar potential is Lipschitz in the position with the constant
    theta_E: two points at distance d have potentials that differ by at
    most theta_E * d.  In particular the potential is continuous across
    both regime boundaries. *)
Theorem function_lipschitz theta_E r_trunc cx cy x1 y1 x2 y2 :
  0 <= theta_E -> 0 < r_trunc ->
  Rabs (scalar_of (function (Scalar x2) (Scalar y2) theta_E r_trunc cx cy)
        - scalar_of (function (Scalar x1) (Scalar y1) theta_E r_trunc cx cy))
  <= theta_E * sqrt ((x2 - x1) * (x2 - x1) + (y2 - y1) * (y2 - y1)).
Proof.
  intros Ht Hrt. rewrite !function_scalar_radial. simpl scalar_of.
  pose proof (radius_reverse_triangle x1 y1 x2 y2 cx cy) as Htri.
  set (r1 := radius x1 y1 cx cy) in *. set (r2 := radius x2 y2 cx cy) in *.
  set (d := sqrt _) in *.
  assert (Hr1 : 0 <= r1) by apply radius_nonneg.
  assert (Hr2 : 0 <= r2) by apply radius_nonneg.
  apply Rabs_le.
  destruct (Rle_dec r1 r2) as [Hle | Hgt].
  - pose proof (radial_potential_lipschitz theta_E r_trunc r1 r2 Ht Hrt Hle).
    pose proof (radial_potential_monotone theta_E r_trunc r1 r2 Ht Hrt Hr1 Hle).
    rewrite Rabs_right in Htri by lra. nra.
  - assert (Hle : r2 <= r1) by lra.
    pose proof (radial_potential_lipschitz theta_E r_trunc r2 r1 Ht Hrt Hle).
    pose proof (radial_potential_monotone theta_E r_trunc r2 r1 Ht Hrt Hr2 Hle).
    rewrite Rabs_left in Htri by lra. nra.
Qed.

Lemma function_lipschitz_witness :
  (0 <= 1 /\ 0 < 1)
  /\ Rabs (scalar_of (function (Scalar 2) (Scalar 0) 1 1 0 0)
           - scalar_of (function (Scalar 0.5) (Scalar 0) 1 1 0 0))
     <= 1 * sqrt ((2 - 0.5) * (2 - 0.5) + (0 - 0) * (0 - 0)).
Proof.
  split; [lra |].
  apply (function_lipschitz 1 1 0 0 0.5 0 2 0); lra.
Defined.

(** *** The deflection is the radial derivative of the potential *)

Lemma radial_deflection_slope theta_E r_trunc r :
  r <> 0 ->
  radial_deflection theta_E r_trunc r = radial_slope theta_E r_trunc r.
Proof.
  intros H. unfold radial_deflection, radial_slope.
  rewrite Req_b_false by exact H. reflexivity.
Qed.

(** The potential stays within theta_E / (2 r_trunc) * (s - r)^2 below its
    tangent at [r], and never above it. *)
Lemma radial_potential_tangent theta_E r_trunc r s :
  0 <= theta_E -> 0 < r_trunc ->
  - (theta_E / (2 * r_trunc)) * ((s - r) * (s - r))
  <= radial_potential theta_E r_trunc s - radial_potential theta_E r_trunc r
     - radial_slope theta_E r_trunc r * (s - r)
  <= 0.
Proof.
  intros Ht Hrt. unfold radial_potential, radial_slope.
  assert (Hk : 0 <= theta_E / (2 * r_trunc)).
  { apply Rmult_le_pos; [lra|]. left. apply Rinv_0_lt_compat. lra. }
  assert (Hth : theta_E = theta_E / (2 * r_trunc) * (2 * r_trunc))
    by (field; lra).
  assert (Hmid : forall u, theta_E * r_trunc
                           + 1 / 2 * theta_E * (3 - u / r_trunc) * (u - r_trunc)
                           = 3 * (theta_E / (2 * r_trunc)) * (r_trunc * r_trunc)
                             - theta_E / (2 * r_trunc)
                               * ((2 * r_trunc - u) * (2 * r_trunc - u)))
    by (intros u; field; lra).
  assert (Hslope : theta_E * (2 - r / r_trunc)
                   = 2 * (theta_E / (2 * r_trunc)) * (2 * r_trunc - r))
    by (field; lra).
  set (k := theta_E / (2 * r_trunc)) in *.
  assert (Hsq : forall u v : R, 0 <= k * ((u - v) * (u - v))).
  { intros u v. apply Rmult_le_pos; [exact Hk |].
    pose proof (Rle_0_sqr (u - v)) as H. unfold Rsqr in H. exact H. }
  assert (Hpp : forall u v : R, 0 <= u -> 0 <= v -> 0 <= k * (u * v)).
  { intros u v Hu Hv. apply Rmult_le_pos; [exact Hk |].
    apply Rmult_le_pos; assumption. }
  destruct (Rlt_dec r r_trunc) as [A1|A1];
    [rewrite (Rlt_b_true r r_trunc) by lra
    | rewrite (Rlt_b_false r r_trunc) by lra;
      destruct (Rlt_dec r (2 * r_trunc)) as [A2|A2];
      [rewrite (Rlt_b_true r (2 * r_trunc)) by lra
      | rewrite (Rlt_b_false r (2 * r_trunc)) by lra]];
    (destruct (Rlt_dec s r_trunc) as [B1|B1];
     [rewrite (Rlt_b_true s r_trunc) by lra
     | rewrite (Rlt_b_false s r_trunc) by lra;
       destruct (Rlt_dec s (2 * r_trunc)) as [B2|B2];
       [rewrite (Rlt_b_true s (2 * r_trunc)) by lra
       | rewrite (Rlt_b_false s (2 * r_trunc)) by lra]]);
    rewrite ?Hmid, ?Hslope; try rewrite Hth.
  - pose proof (Hsq s r). split; lra.
  - pose proof (Hsq s r). pose proof (Hsq s r_trunc).
    pose proof (Hpp (r_trunc - r) (2 * s - r - r_trunc)).
    split; nra.
  - pose proof (Hsq s r). pose proof (Hsq s (2 * r_trunc)).
    pose proof (Hpp (r_trunc - r) (2 * s - r - r_trunc)).
    pose proof (Hpp r_trunc (2 * s - 3 * r_trunc)).
    split; nra.
  - pose proof (Hsq s r). pose proof (Hsq s r_trunc).
    pose proof (Hpp (r_trunc - s) (r - r_trunc)).
    pose proof (Hpp (2 * r_trunc - r) (r_trunc - s)).
    split; nra.
  - pose proof (Hsq s r). split; nra.
  - pose proof (Hsq s r). pose proof (Hsq (s - r) (2 * r_trunc - r)).
    pose proof (Hpp (2 * r_trunc - r) (s - 2 * r_trunc)).
    split; nra.
  - pose proof (Hsq s r). pose proof (Hsq s r_trunc).
    pose proof (Hpp r_trunc (3 * r_trunc - 2 * s)).
    pose proof (Hpp (r - 2 * r_trunc) (r + 2 * r_trunc - 2 * s)).
    split; nra.
  - pose proof (Hsq s r). pose proof (Hsq s (2 * r_trunc)).
    pose proof (Hpp (r - 2 * r_trunc) (r + 2 * r_trunc - 2 * s)).
    split; nra.
  - pose proof (Hsq s r). split; nra.
Qed.

Lemma radial_potential_derivative theta_E r_trunc r :
  0 <= theta_E -> 0 < r_trunc ->
  derivable_pt_lim (radial_potential theta_E r_trunc) r
    (radial_slope theta_E r_trunc r).
Proof.
  intros Ht Hrt eps Heps.
  assert (Hk : 0 <= theta_E / (2 * r_trunc)).
  { apply Rmult_le_pos; [lra|]. left. apply Rinv_0_lt_compat. lra. }
  set (k := theta_E / (2 * r_trunc)) in *.
  assert (Hd : 0 < eps / (k + 1)) by (apply Rdiv_lt_0_compat; lra).
  exists (mkposreal _ Hd). simpl. intros h Hh Hlt.
  pose proof (radial_potential_tangent theta_E r_trunc r (r + h) Ht Hrt) as Ht2.
  fold k in Ht2. replace (r + h - r) with h in Ht2 by ring.
  set (E := radial_potential theta_E r_trunc (r + h)
            - radial_potential theta_E r_trunc r
            - radial_slope theta_E r_trunc r * h) in *.
  replace ((radial_potential theta_E r_trunc (r + h)
            - radial_potential theta_E r_trunc r) / h
           - radial_slope theta_E r_trunc r)
    with (E / h) by (unfold E; field; exact Hh).
  assert (Hah : 0 < Rabs h) by (apply Rabs_pos_lt; exact Hh).
  assert (Hhh : h * h = Rabs h * Rabs h).
  { unfold Rabs. destruct (Rcase_abs h); ring. }
  assert (HE : Rabs E <= k * Rabs h * Rabs h).
  { apply Rabs_le. rewrite Rmult_assoc, <- Hhh. lra. }
  unfold Rdiv. rewrite Rabs_mult, Rabs_inv.
  apply Rle_lt_trans with (k * Rabs h).
  - apply Rmult_le_reg_r with (Rabs h); [exact Hah |].
    rewrite Rmult_assoc, Rinv_l by lra. lra.
  - assert (Hm : (k + 1) * (eps / (k + 1)) = eps) by (field; lra).
    assert (Hkh : k * Rabs h <= k * (eps / (k + 1)))
      by (apply Rmult_le_compat_l; lra).
    lra.
Qed.

(** The distance to the center along a ray of unit direction. *)
Lemma radius_on_ray cx cy ux uy s :
  ux * ux + uy * uy = 1 -> 0 <= s ->
  radius (cx + s * ux) (cy + s * uy) cx cy = s.
Proof.
  intros Hu Hs. unfold radius. apply sqrt_lem_1; [| exact Hs |].
  - replace ((cx + s * ux - cx) * (cx + s * ux - cx)
             + (cy + s * uy - cy) * (cy + s * uy - cy))
      with (s * s * (ux * ux + uy * uy)) by ring.
    rewrite Hu. nra.
  - replace ((cx + s * ux - cx) * (cx + s * ux - cx)
             + (cy + s * uy - cy) * (cy + s * uy - cy))
      with (s * s * (ux * ux + uy * uy)) by ring.
    rewrite Hu. ring.
Qed.

(** [_dphi_dr] is the derivative of the potential along every ray from
    the center: for a unit direction (ux, uy) and a distance r > 0, the
    function s |-> function(center + s (ux, uy)) has at s = r the
    derivative _dphi_dr(r ux, r uy), regime boundaries included. *)
Theorem dphi_dr_is_radial_derivative theta_E r_trunc cx cy ux uy r :
  0 <= theta_E -> 0 < r_trunc -> ux * ux + uy * uy = 1 -> 0 < r ->
  derivable_pt_lim
    (fun s => scalar_of (function (Scalar (cx + s * ux)) (Scalar (cy + s * uy))
                           theta_E r_trunc cx cy))
    r
    (scalar_of (_dphi_dr (Scalar (r * ux)) (Scalar (r * uy)) theta_E r_trunc)).
Proof.
  intros Ht Hrt Hu Hr eps Heps.
  destruct (radial_potential_derivative theta_E r_trunc r Ht Hrt eps Heps)
    as [delta Hdelta].
  assert (Hmin : 0 < Rmin delta r).
  { apply Rmin_glb_lt; [apply cond_pos | exact Hr]. }
  exists (mkposreal _ Hmin). intros h Hh Hlt. simpl in Hlt. cbv beta.
  assert (Hh1 : Rabs h < delta)
    by (apply Rlt_le_trans with (Rmin delta r); [exact Hlt | apply Rmin_l]).
  assert (Hh2 : Rabs h < r)
    by (apply Rlt_le_trans with (Rmin delta r); [exact Hlt | apply Rmin_r]).
  assert (Hpos : 0 <= r + h).
  { unfold Rabs in Hh2. destruct (Rcase_abs h); lra. }
  rewrite !function_scalar_radial, dphi_dr_scalar_radial. simpl scalar_of.
  rewrite !radius_on_ray by (assumption || lra).
  replace (sqrt (r * ux * (r * ux) + r * uy * (r * uy))) with r.
  - rewrite radial_deflection_slope by lra. apply Hdelta; assumption.
  - symmetry. apply sqrt_lem_1; [| lra |].
    + replace (r * ux * (r * ux) + r * uy * (r * uy))
        with (r * r * (ux * ux + uy * uy)) by ring.
      rewrite Hu. nra.
    + replace (r * ux * (r * ux) + r * uy * (r * uy))
        with (r * r * (ux * ux + uy * uy)) by ring.
      rewrite Hu. ring.
Qed.

Lemma dphi_dr_is_radial_derivative_witness :
  (0 <= 1 /\ 0 < 1 /\ 1 * 1 + 0 * 0 = 1 /\ 0 < 1)
  /\ derivable_pt_lim
       (fun s => scalar_of (function (Scalar (0 + s * 1)) (Scalar (0 + s * 0))
                              1 1 0 0))
       1
       (scalar_of (_dphi_dr (Scalar (1 * 1)) (Scalar (1 * 0)) 1 1)).
Proof.
  split; [repeat split; lra |].
  apply (dphi_dr_is_radial_derivative 1 1 0 0 1 0 1); lra.
Defined.

(** A function that is affine near a point has there the slope as its
    derivative. *)
Lemma derivable_pt_lim_local_affine (f : R -> R) (r A B delta0 : R) :
  0 < delta0 ->
  (forall s, Rabs (s - r) < delta0 -> f s = A + B * s) ->
  derivable_pt_lim f r B.
Proof.
  intros Hd Hloc eps Heps. exists (mkposreal _ Hd). simpl. intros h Hh Hlt.
  rewrite (Hloc (r + h)) by (replace (r + h - r) with h by ring; exact Hlt).
  rewrite (Hloc r)
    by (replace (r - r) with 0 by ring; rewrite Rabs_R0; exact Hd).
  replace ((A + B * (r + h) - (A + B * r)) / h - B) with 0
    by (field; exact Hh).
  rewrite Rabs_R0. exact Heps.
Qed.

Lemma dphi_dr_on_x_axis theta_E r_trunc s :
  0 < s ->
  scalar_of (_dphi_dr (Scalar s) (Scalar 0) theta_E r_trunc)
  = radial_slope theta_E r_trunc s.
Proof.
  intros Hs. rewrite dphi_dr_scalar_radial. simpl scalar_of.
  replace (sqrt (s * s + 0 * 0)) with s
    by (symmetry; apply sqrt_lem_1; [nra | lra | ring]).
  apply radial_deflection_slope. lra.
Qed.

(** [_d2phi_dr2] is the derivative of [_dphi_dr] with respect to the
    radius strictly inside each of the three regimes. *)
Theorem d2phi_dr2_is_derivative_of_dphi_dr theta_E r_trunc r :
  0 < r_trunc -> 0 < r -> r <> r_trunc -> r <> 2 * r_trunc ->
  exists d2 : R,
    _d2phi_dr2 (Scalar r) (Scalar 0) theta_E r_trunc = Ok (Scalar d2)
    /\ derivable_pt_lim
         (fun s => scalar_of (_dphi_dr (Scalar s) (Scalar 0) theta_E r_trunc))
         r d2.
Proof.
  intros Hrt Hr H1 H2.
  assert (Hsq : sqrt (r * r + 0 * 0) = r)
    by (apply sqrt_lem_1; [nra | lra | ring]).
  destruct (d2phi_dr2_scalar_regimes r 0 theta_E r_trunc Hrt)
    as (R1 & R2 & R3).
  rewrite Hsq in R1, R2, R3.
  destruct (Rtotal_order r r_trunc) as [A | [A | A]]; [| lra |].
  - exists 0. split; [apply R1; lra |].
    assert (Hd : 0 < Rmin r (r_trunc - r)) by (apply Rmin_glb_lt; lra).
    apply (derivable_pt_lim_local_affine _ r theta_E 0 _ Hd).
    intros s Hs.
    assert (Hs1 : Rabs (s - r) < r)
      by (apply Rlt_le_trans with (Rmin r (r_trunc - r));
          [exact Hs | apply Rmin_l]).
    assert (Hs2 : Rabs (s - r) < r_trunc - r)
      by (apply Rlt_le_trans with (Rmin r (r_trunc - r));
          [exact Hs | apply Rmin_r]).
    apply Rabs_def2 in Hs1. apply Rabs_def2 in Hs2.
    rewrite dphi_dr_on_x_axis by lra. unfold radial_slope.
    rewrite Rlt_b_true by lra. ring.
  - destruct (Rtotal_order r (2 * r_trunc)) as [B | [B | B]]; [| lra |].
    + exists (- theta_E / r_trunc). split; [apply R2; lra |].
      assert (Hd : 0 < Rmin (r - r_trunc) (2 * r_trunc - r))
        by (apply Rmin_glb_lt; lra).
      apply (derivable_pt_lim_local_affine _ r (2 * theta_E)
               (- theta_E / r_trunc) _ Hd).
      intros s Hs.
      assert (Hs1 : Rabs (s - r) < r - r_trunc)
        by (apply Rlt_le_trans with (Rmin (r - r_trunc) (2 * r_trunc - r));
            [exact Hs | apply Rmin_l]).
      assert (Hs2 : Rabs (s - r) < 2 * r_trunc - r)
        by (apply Rlt_le_trans with (Rmin (r - r_trunc) (2 * r_trunc - r));
            [exact Hs | apply Rmin_r]).
      apply Rabs_def2 in Hs1. apply Rabs_def2 in Hs2.
      rewrite dphi_dr_on_x_axis by lra. unfold radial_slope.
      rewrite (Rlt_b_false s r_trunc) by lra. rewrite Rlt_b_true by lra.
      field. lra.
    + exists 0. split; [apply R3; lra |].
      assert (Hd : 0 < r - 2 * r_trunc) by lra.
      apply (derivable_pt_lim_local_affine _ r 0 0 _ Hd).
      intros s Hs. apply Rabs_def2 in Hs.
      rewrite dphi_dr_on_x_axis by lra. unfold radial_slope.
      rewrite (Rlt_b_false s r_trunc) by lra. rewrite Rlt_b_false by lra.
      ring.
Qed.

Lemma d2phi_dr2_is_derivative_of_dphi_dr_witness :
  (0 < 1 /\ 0 < 1.5 /\ 1.5 <> 1 /\ 1.5 <> 2 * 1)
  /\ exists d2 : R,
      _d2phi_dr2 (Scalar 1.5) (Scalar 0) 1 1 = Ok (Scalar d2)
      /\ derivable_pt_lim
           (fun s => scalar_of (_dphi_dr (Scalar s) (Scalar 0) 1 1)) 1.5 d2.
Proof.
  split; [repeat split; lra |].
  apply (d2phi_dr2_is_derivative_of_dphi_dr 1 1 1.5); lra.
Defined.

(** *** Deflection and Hessian on scalars *)

Lemma sqrt_pow2_sum u v : sqrt (u ^ 2 + v ^ 2) = sqrt (u * u + v * v).
Proof. f_equal. ring. Qed.

Lemma sqrt_sum_zero u v : sqrt (u * u + v * v) = 0 -> u = 0 /\ v = 0.
Proof.
  intros H. apply sqrt_eq_0 in H; [| nra].
  split; nra.
Qed.

Lemma sqrt_sum_square u v :
  sqrt (u * u + v * v) * sqrt (u * u + v * v) = u * u + v * v.
Proof. apply sqrt_def. nra. Qed.

Lemma d2phi_dr2_scalar_radial x y theta_E r_trunc :
  r_trunc <> 0 ->
  _d2phi_dr2 (Scalar x) (Scalar y) theta_E r_trunc
  = Ok (Scalar (radial_curvature theta_E r_trunc (sqrt (x * x + y * y)))).
Proof.
  intros H. unfold _d2phi_dr2, radial_curvature; simpl.
  destruct (Rlt_b _ r_trunc); [reflexivity |].
  destruct (Rlt_b _ (2 * r_trunc)); [| reflexivity].
  rewrite pydiv_ok by exact H. reflexivity.
Qed.

Lemma dr_dx_scalar x y :
  _dr_dx (Scalar x) (Scalar y)
  = (Scalar (x / guarded (sqrt (x * x + y * y))),
     Scalar (y / guarded (sqrt (x * x + y * y)))).
Proof. unfold _dr_dx; simpl. rewrite <- sqrt_pow2_sum. reflexivity. Qed.

Lemma d2r_dx2_scalar x y :
  _d2r_dx2 (Scalar x) (Scalar y)
  = (Scalar (y ^ 2 / guarded (sqrt (x * x + y * y)) ^ 3),
     Scalar (x ^ 2 / guarded (sqrt (x * x + y * y)) ^ 3),
     Scalar (- x * y / guarded (sqrt (x * x + y * y)) ^ 3)).
Proof. unfold _d2r_dx2; simpl. rewrite <- sqrt_pow2_sum. reflexivity. Qed.

Lemma derivatives_scalar_form x y theta_E r_trunc cx cy :
  derivatives (Scalar x) (Scalar y) theta_E r_trunc cx cy
  = let xs := x - cx in
    let ys := y - cy in
    let r := sqrt (xs * xs + ys * ys) in
    (Scalar (radial_deflection theta_E r_trunc r * (xs / guarded r)),
     Scalar (radial_deflection theta_E r_trunc r * (ys / guarded r))).
Proof.
  unfold derivatives. simpl vsub.
  rewrite dphi_dr_scalar_radial, dr_dx_scalar. reflexivity.
Qed.

Lemma hessian_scalar_form x y theta_E r_trunc cx cy :
  r_trunc <> 0 ->
  hessian (Scalar x) (Scalar y) theta_E r_trunc cx cy
  = let xs := x - cx in
    let ys := y - cy in
    let r := sqrt (xs * xs + ys * ys) in
    let ru := guarded (sqrt (x * x + y * y)) in
    let d := radial_deflection theta_E r_trunc r in
    let d2 := radial_curvature theta_E r_trunc r in
    Ok (Scalar (ys ^ 2 / guarded r ^ 3 * d + (x / ru) ^ 2 * d2),
        Scalar (- xs * ys / guarded r ^ 3 * d + x / ru * (y / ru) * d2),
        Scalar (- xs * ys / guarded r ^ 3 * d + x / ru * (y / ru) * d2),
        Scalar (xs ^ 2 / guarded r ^ 3 * d + (y / ru) ^ 2 * d2)).
Proof.
  intros H. unfold hessian. simpl vsub.
  rewrite dphi_dr_scalar_radial, d2phi_dr2_scalar_radial by exact H.
  rewrite dr_dx_scalar, d2r_dx2_scalar. reflexivity.
Qed.

Lemma radial_deflection_bounds theta_E r_trunc r :
  0 <= theta_E -> 0 < r_trunc -> 0 <= r ->
  0 <= radial_deflection theta_E r_trunc r <= theta_E.
Proof.
  intros Ht Hrt Hr. unfold radial_deflection.
  destruct (Req_dec_T r 0) as [-> | H0];
    [rewrite Req_b_true by reflexivity; lra | rewrite Req_b_false by exact H0].
  destruct (Rlt_dec r r_trunc);
    [rewrite Rlt_b_true by lra; lra | rewrite Rlt_b_false by lra].
  destruct (Rlt_dec r (2 * r_trunc));
    [rewrite Rlt_b_true by lra | rewrite Rlt_b_false by lra; lra].
  assert (Hq : 1 <= r / r_trunc < 2).
  { split.
    - apply Rmult_le_reg_r with r_trunc; [lra |].
      unfold Rdiv. rewrite Rmult_assoc, Rinv_l by lra. lra.
    - apply Rmult_lt_reg_r with r_trunc; [lra |].
      unfold Rdiv. rewrite Rmult_assoc, Rinv_l by lra. lra. }
  split; [apply Rmult_le_pos; lra | nra].
Qed.

(** At the center, and at every radius between 1e-150 and 1e150 (whose
    square is neither lost nor out of range as a double), the deflection
    is radial and its length is dphi/dr: it points along the centered
    position, its length lies between 0 and theta_E, equals theta_E
    strictly inside r_trunc (away from the center) and is 0 from
    2 r_trunc on. *)
Theorem deflection_radial_and_bounded x y theta_E r_trunc cx cy :
  0 <= theta_E -> 0 < r_trunc ->
  radius x y cx cy = 0 \/ 1e-150 <= radius x y cx cy <= 1e150 ->
  exists fx fy d : R,
    derivatives (Scalar x) (Scalar y) theta_E r_trunc cx cy
    = (Scalar fx, Scalar fy)
    /\ _dphi_dr (Scalar (x - cx)) (Scalar (y - cy)) theta_E r_trunc = Scalar d
    /\ fx * fx + fy * fy = d * d
    /\ fx * (y - cy) = fy * (x - cx)
    /\ 0 <= d <= theta_E
    /\ (0 < radius x y cx cy < r_trunc -> d = theta_E)
    /\ (2 * r_trunc <= radius x y cx cy -> fx = 0 /\ fy = 0).
Proof.
  intros Ht Hrt _. rewrite derivatives_scalar_form, dphi_dr_scalar_radial.
  cbv zeta. unfold radius.
  set (xs := x - cx). set (ys := y - cy).
  pose proof (sqrt_pos (xs * xs + ys * ys)) as Hr.
  pose proof (sqrt_sum_square xs ys) as Hrr.
  pose proof (sqrt_sum_zero xs ys) as Hr0.
  set (r := sqrt (xs * xs + ys * ys)) in *.
  pose proof (radial_deflection_bounds theta_E r_trunc r Ht Hrt Hr) as Hd.
  set (d := radial_deflection theta_E r_trunc r) in *.
  exists (d * (xs / guarded r)), (d * (ys / guarded r)), d.
  split; [reflexivity |]. split; [reflexivity |].
  assert (Hsq : d * (xs / guarded r) * (d * (xs / guarded r))
                + d * (ys / guarded r) * (d * (ys / guarded r)) = d * d).
  { unfold guarded. destruct (Req_dec_T r 0) as [E | E].
    - rewrite Req_b_true by exact E. destruct (Hr0 E) as [-> ->].
      unfold d, radial_deflection. rewrite Req_b_true by exact E. field.
    - rewrite Req_b_false by exact E.
      replace (d * (xs / r) * (d * (xs / r)) + d * (ys / r) * (d * (ys / r)))
        with (d * d * ((xs * xs + ys * ys) / (r * r))) by (field; exact E).
      rewrite <- Hrr. field. exact E. }
  split; [exact Hsq |].
  split; [unfold Rdiv; ring |].
  split; [exact Hd |].
  split.
  - intros [H1 H2]. unfold d, radial_deflection.
    rewrite Req_b_false by lra. rewrite Rlt_b_true by lra. reflexivity.
  - intros H. assert (Hd0 : d = 0).
    { unfold d, radial_deflection.
      rewrite Req_b_false by lra. rewrite Rlt_b_false by lra.
      rewrite Rlt_b_false by lra. reflexivity. }
    rewrite Hd0. split; ring.
Qed.

Lemma deflection_radial_and_bounded_witness :
  (0 <= 1 /\ 0 < 1
   /\ (radius 3 4 0 0 = 0 \/ 1e-150 <= radius 3 4 0 0 <= 1e150))
  /\ exists fx fy d : R,
      derivatives (Scalar 3) (Scalar 4) 1 1 0 0 = (Scalar fx, Scalar fy)
      /\ _dphi_dr (Scalar (3 - 0)) (Scalar (4 - 0)) 1 1 = Scalar d
      /\ fx * fx + fy * fy = d * d
      /\ fx * (4 - 0) = fy * (3 - 0)
      /\ 0 <= d <= 1
      /\ (0 < radius 3 4 0 0 < 1 -> d = 1)
      /\ (2 * 1 <= radius 3 4 0 0 -> fx = 0 /\ fy = 0).
Proof.
  assert (Hr : radius 3 4 0 0 = 5).
  { unfold radius. apply sqrt_lem_1; lra. }
  assert (H : radius 3 4 0 0 = 0 \/ 1e-150 <= radius 3 4 0 0 <= 1e150)
    by (right; rewrite Hr; lra).
  split; [repeat split; try lra; exact H |].
  apply (deflection_radial_and_bounded 3 4 1 1 0 0); [lra | lra | exact H].
Defined.

Lemma guarded_nonzero r : 0 <= r -> guarded r <> 0.
Proof.
  intros Hr. unfold guarded. destruct (Req_dec_T r 0) as [E | E].
  - rewrite Req_b_true by exact E. lra.
  - rewrite Req_b_false by exact E. exact E.
Qed.

(** Outside the blend regime the second radial derivative vanishes, and
    with it the only term in which [hessian] uses the uncentered
    coordinates: for r < r_trunc or r >= 2 r_trunc the Hessian is the one
    of the centered point, and from 2 r_trunc on it is zero. *)
Theorem hessian_centered_outside_blend x y theta_E r_trunc cx cy :
  0 < r_trunc ->
  radius x y cx cy < r_trunc \/ 2 * r_trunc <= radius x y cx cy ->
  hessian (Scalar x) (Scalar y) theta_E r_trunc cx cy
  = hessian (Scalar (x - cx)) (Scalar (y - cy)) theta_E r_trunc 0 0
  /\ (2 * r_trunc <= radius x y cx cy ->
      exists z1 z2 z3 z4 : R,
        hessian (Scalar x) (Scalar y) theta_E r_trunc cx cy
        = Ok (Scalar z1, Scalar z2, Scalar z3, Scalar z4)
        /\ z1 = 0 /\ z2 = 0 /\ z3 = 0 /\ z4 = 0).
Proof.
  intros Hrt Hreg. rewrite !hessian_scalar_form by lra. cbv zeta.
  unfold radius in Hreg |- *.
  replace (x - cx - 0) with (x - cx) by ring.
  replace (y - cy - 0) with (y - cy) by ring.
  set (xs := x - cx) in *. set (ys := y - cy) in *.
  pose proof (sqrt_pos (xs * xs + ys * ys)) as Hr.
  set (r := sqrt (xs * xs + ys * ys)) in *.
  assert (Hc : radial_curvature theta_E r_trunc r = 0).
  { unfold radial_curvature. destruct Hreg as [H | H].
    - rewrite Rlt_b_true by lra. reflexivity.
    - rewrite Rlt_b_false by lra. rewrite Rlt_b_false by lra. reflexivity. }
  rewrite Hc. split.
  - do 2 f_equal; [do 2 f_equal |]; f_equal; ring.
  - intros Hfar.
    assert (Hd : radial_deflection theta_E r_trunc r = 0).
    { unfold radial_deflection. rewrite Req_b_false by lra.
      rewrite Rlt_b_false by lra. rewrite Rlt_b_false by lra. reflexivity. }
    rewrite Hd. do 4 eexists. split; [reflexivity |].
    repeat split; ring.
Qed.

Lemma hessian_centered_outside_blend_witness :
  (0 < 1 /\ (radius 1.5 1 1 1 < 1 \/ 2 * 1 <= radius 1.5 1 1 1))
  /\ hessian (Scalar 1.5) (Scalar 1) 1 1 1 1
     = hessian (Scalar (1.5 - 1)) (Scalar (1 - 1)) 1 1 0 0.
Proof.
  assert (H : radius 1.5 1 1 1 < 1 \/ 2 * 1 <= radius 1.5 1 1 1).
  { left. unfold radius.
    replace (sqrt ((1.5 - 1) * (1.5 - 1) + (1 - 1) * (1 - 1))) with 0.5
      by (symmetry; apply sqrt_lem_1; lra).
    lra. }
  split; [split; [lra | exact H] |].
  apply (hessian_centered_outside_blend 1.5 1 1 1 1 1); [lra | exact H].
Defined.

(** Strictly inside r_trunc, away from the center, the Hessian is that of
    a singular isothermal sphere whatever the center: its trace is
    theta_E / r and its determinant is 0. *)
Theorem hessian_inner_regime x y theta_E r_trunc cx cy :
  0 < radius x y cx cy < r_trunc ->
  exists f_xx f_xy f_yy : R,
    hessian (Scalar x) (Scalar y) theta_E r_trunc cx cy
    = Ok (Scalar f_xx, Scalar f_xy, Scalar f_xy, Scalar f_yy)
    /\ f_xx + f_yy = theta_E / radius x y cx cy
    /\ f_xx * f_yy - f_xy * f_xy = 0.
Proof.
  intros [Hr0 Hr1]. rewrite hessian_scalar_form by lra. cbv zeta.
  unfold radius in *.
  set (xs := x - cx) in *. set (ys := y - cy) in *.
  pose proof (sqrt_sum_square xs ys) as Hrr.
  set (r := sqrt (xs * xs + ys * ys)) in *.
  assert (Hc : radial_curvature theta_E r_trunc r = 0)
    by (unfold radial_curvature; rewrite Rlt_b_true by lra; reflexivity).
  assert (Hd : radial_deflection theta_E r_trunc r = theta_E).
  { unfold radial_deflection. rewrite Req_b_false by lra.
    rewrite Rlt_b_true by lra. reflexivity. }
  assert (Hg : guarded r = r)
    by (unfold guarded; rewrite Req_b_false by lra; reflexivity).
  rewrite Hc, Hd, Hg. rewrite !Rmult_0_r, !Rplus_0_r.
  do 3 eexists. split; [reflexivity |]. split.
  - replace (ys ^ 2 / r ^ 3 * theta_E + xs ^ 2 / r ^ 3 * theta_E)
      with ((xs * xs + ys * ys) / (r * r) * (theta_E / r)) by (field; lra).
    rewrite <- Hrr. field. lra.
  - field. lra.
Qed.

Lemma hessian_inner_regime_witness :
  (0 < radius 1.5 1 1 1 < 1)
  /\ exists f_xx f_xy f_yy : R,
      hessian (Scalar 1.5) (Scalar 1) 1 1 1 1
      = Ok (Scalar f_xx, Scalar f_xy, Scalar f_xy, Scalar f_yy)
      /\ f_xx + f_yy = 1 / radius 1.5 1 1 1
      /\ f_xx * f_yy - f_xy * f_xy = 0.
Proof.
  assert (H : 0 < radius 1.5 1 1 1 < 1).
  { unfold radius.
    replace (sqrt ((1.5 - 1) * (1.5 - 1) + (1 - 1) * (1 - 1))) with 0.5
      by (symmetry; apply sqrt_lem_1; lra).
    lra. }
  split; [exact H |].
  apply (hessian_inner_regime 1.5 1 1 1 1 1 H).
Defined.

(** With the default center (0, 0) the trace of the Hessian is the radial
    Laplacian dphi/dr / r + d2phi/dr2, in every regime. *)
Theorem hessian_trace_default_center x y theta_E r_trunc :
  0 < r_trunc -> x <> 0 \/ y <> 0 ->
  exists f_xx f_xy f_yy d d2 : R,
    hessian (Scalar x) (Scalar y) theta_E r_trunc 0 0
    = Ok (Scalar f_xx, Scalar f_xy, Scalar f_xy, Scalar f_yy)
    /\ _dphi_dr (Scalar x) (Scalar y) theta_E r_trunc = Scalar d
    /\ _d2phi_dr2 (Scalar x) (Scalar y) theta_E r_trunc = Ok (Scalar d2)
    /\ f_xx + f_yy = d / sqrt (x * x + y * y) + d2.
Proof.
  intros Hrt Hxy. rewrite hessian_scalar_form by lra. cbv zeta.
  rewrite dphi_dr_scalar_radial, d2phi_dr2_scalar_radial by lra.
  replace (x - 0) with x by ring. replace (y - 0) with y by ring.
  pose proof (sqrt_pos (x * x + y * y)) as Hr.
  pose proof (sqrt_sum_square x y) as Hrr.
  pose proof (sqrt_sum_zero x y) as Hr0.
  set (r := sqrt (x * x + y * y)) in *.
  assert (Hrne : r <> 0) by (intros E; destruct (Hr0 E); destruct Hxy; lra).
  assert (Hg : guarded r = r)
    by (unfold guarded; rewrite Req_b_false by exact Hrne; reflexivity).
  rewrite Hg. do 5 eexists.
  split; [reflexivity |]. split; [reflexivity |]. split; [reflexivity |].
  set (d := radial_deflection theta_E r_trunc r).
  set (d2 := radial_curvature theta_E r_trunc r).
  replace (y ^ 2 / r ^ 3 * d + (x / r) ^ 2 * d2
           + (x ^ 2 / r ^ 3 * d + (y / r) ^ 2 * d2))
    with ((x * x + y * y) / (r * r) * (d / r + d2)) by (field; exact Hrne).
  rewrite <- Hrr. field. exact Hrne.
Qed.

Lemma hessian_trace_default_center_witness :
  (0 < 1 /\ (1.5 <> 0 \/ 0 <> 0))
  /\ exists f_xx f_xy f_yy d d2 : R,
      hessian (Scalar 1.5) (Scalar 0) 1 1 0 0
      = Ok (Scalar f_xx, Scalar f_xy, Scalar f_xy, Scalar f_yy)
      /\ _dphi_dr (Scalar 1.5) (Scalar 0) 1 1 = Scalar d
      /\ _d2phi_dr2 (Scalar 1.5) (Scalar 0) 1 1 = Ok (Scalar d2)
      /\ f_xx + f_yy = d / sqrt (1.5 * 1.5 + 0 * 0) + d2.
Proof.
  assert (H : 1.5 <> 0 \/ 0 <> 0) by (left; lra).
  split; [split; [lra | exact H] |].
  apply (hessian_trace_default_center 1.5 0 1 1); [lra | exact H].
Defined.

(** For r_trunc = 0, the published lower limit, the array branch of
    [_d2phi_dr2] divides by zero before it looks at any mask: it and
    [hessian] raise ZeroDivisionError on every array input, while on
    scalars both return zeros. *)
Theorem hessian_array_raises_at_zero_truncation
        (xs ys : list R) (x y theta_E cx cy : R) :
  _d2phi_dr2 (Array xs) (Array ys) theta_E 0 = Raise ZeroDivisionError
  /\ hessian (Array xs) (Array ys) theta_E 0 cx cy = Raise ZeroDivisionError
  /\ _d2phi_dr2 (Scalar x) (Scalar y) theta_E 0 = Ok (Scalar 0)
  /\ exists z1 z2 z3 z4 : R,
      hessian (Scalar x) (Scalar y) theta_E 0 cx cy
      = Ok (Scalar z1, Scalar z2, Scalar z3, Scalar z4)
      /\ z1 = 0 /\ z2 = 0 /\ z3 = 0 /\ z4 = 0.
Proof.
  assert (Ha : forall us vs, _d2phi_dr2 (Array us) (Array vs) theta_E 0
                             = Raise ZeroDivisionError).
  { intros us vs. unfold _d2phi_dr2; simpl. rewrite pydiv_zero. reflexivity. }
  assert (Hs : forall u v, _d2phi_dr2 (Scalar u) (Scalar v) theta_E 0
                           = Ok (Scalar 0)).
  { intros u v. unfold _d2phi_dr2; simpl.
    pose proof (sqrt_pos (u * u + v * v)).
    rewrite Rlt_b_false by lra. rewrite Rlt_b_false by lra. reflexivity. }
  split; [apply Ha |]. split.
  - unfold hessian. simpl vsub. rewrite Ha. reflexivity.
  - split; [apply Hs |].
    unfold hessian. simpl vsub. rewrite Hs, dphi_dr_scalar_radial.
    rewrite dr_dx_scalar, d2r_dx2_scalar.
    assert (Hd : radial_deflection theta_E 0
                   (sqrt ((x - cx) * (x - cx) + (y - cy) * (y - cy))) = 0).
    { unfold radial_deflection.
      pose proof (sqrt_pos ((x - cx) * (x - cx) + (y - cy) * (y - cy))).
      destruct (Req_b _ 0); [reflexivity |].
      rewrite Rlt_b_false by lra. rewrite Rlt_b_false by lra. reflexivity. }
    rewrite Hd. simpl. do 4 eexists. split; [reflexivity |].
    repeat split; ring.
Qed.

(** *** Arrays against scalars *)

Lemma zip_with_ext (f g : R -> R -> R) (xs ys : list R) :
  (forall x y, f x y = g x y) -> zip_with f xs ys = zip_with g xs ys.
Proof.
  intros H. revert ys. induction xs as [|x xs IH]; intros [|y ys]; simpl;
    try reflexivity.
  rewrite H, IH. reflexivity.
Qed.

Lemma derivatives_array_lists (F : R -> R) (cx cy : R) (xs ys : list R) :
  let sx := fun v => v - cx in
  let sy := fun v => v - cy in
  let radii :=
    map sqrt (zip_with Rplus (zip_with Rmult (map sx xs) (map sx xs))
                (zip_with Rmult (map sy ys) (map sy ys))) in
  let r2 :=
    map sqrt (zip_with Rplus (map (fun v => v ^ 2) (map sx xs))
                (map (fun v => v ^ 2) (map sy ys))) in
  let guard := setitem_scalar r2 (mask_eq r2 0) 1 in
  zip_with Rmult (map F radii) (zip_with Rdiv (map sx xs) guard)
  = zip_with (fun x y =>
                F (sqrt ((x - cx) * (x - cx) + (y - cy) * (y - cy)))
                * ((x - cx)
                   / guarded (sqrt ((x - cx) * (x - cx) + (y - cy) * (y - cy)))))
      xs ys
  /\ zip_with Rmult (map F radii) (zip_with Rdiv (map sy ys) guard)
     = zip_with (fun x y =>
                   F (sqrt ((x - cx) * (x - cx) + (y - cy) * (y - cy)))
                   * ((y - cy)
                      / guarded
                          (sqrt ((x - cx) * (x - cx) + (y - cy) * (y - cy)))))
         xs ys.
Proof.
  cbv zeta. revert ys. induction xs as [|x xs IH]; intros [|y ys]; simpl;
    try (split; reflexivity).
  destruct (IH ys) as [IH1 IH2]. unfold mask_eq in *.
  replace ((x - cx) * ((x - cx) * 1) + (y - cy) * ((y - cy) * 1))
    with ((x - cx) * (x - cx) + (y - cy) * (y - cy)) by ring.
  split; [rewrite <- IH1 | rewrite <- IH2]; reflexivity.
Qed.

(** On arrays of equal length whose centered coordinates are at most
    1e150 in absolute value (so that no square overflows, which raises on
    a scalar and not on an array), [derivatives] is the scalar deflection
    of every pair, in order, boundaries of the regimes included. *)
Theorem radial_derivatives_array_elementwise xs ys theta_E r_trunc cx cy :
  length xs = length ys ->
  Forall (fun x => Rabs (x - cx) <= 1e150) xs ->
  Forall (fun y => Rabs (y - cy) <= 1e150) ys ->
  derivatives (Array xs) (Array ys) theta_E r_trunc cx cy
  = (Array (zip_with
              (fun x y => scalar_of (fst (derivatives (Scalar x) (Scalar y)
                                            theta_E r_trunc cx cy)))
              xs ys),
     Array (zip_with
              (fun x y => scalar_of (snd (derivatives (Scalar x) (Scalar y)
                                            theta_E r_trunc cx cy)))
              xs ys)).
Proof.
  intros _ _ _. unfold derivatives at 1. simpl vsub.
  rewrite dphi_dr_array_elems.
  destruct (derivatives_array_lists (radial_deflection theta_E r_trunc)
              cx cy xs ys) as [H1 H2].
  cbv zeta in H1, H2.
  match type of H1 with
  | ?l1 = _ =>
      match type of H2 with
      | ?l2 = _ => transitivity (Array l1, Array l2)
      end
  end.
  - reflexivity.
  - rewrite H1, H2.
    f_equal; f_equal; apply zip_with_ext; intros x y;
      rewrite derivatives_scalar_form; reflexivity.
Qed.

Lemma radial_derivatives_array_elementwise_witness :
  (length [1; 2] = length [0; 0]
   /\ Forall (fun x => Rabs (x - 0) <= 1e150) [1; 2]
   /\ Forall (fun y => Rabs (y - 0) <= 1e150) [0; 0])
  /\ derivatives (Array [1; 2]) (Array [0; 0]) 1 1 0 0
     = (Array (zip_with
                 (fun x y => scalar_of (fst (derivatives (Scalar x) (Scalar y)
                                               1 1 0 0)))
                 [1; 2] [0; 0]),
        Array (zip_with
                 (fun x y => scalar_of (snd (derivatives (Scalar x) (Scalar y)
                                               1 1 0 0)))
                 [1; 2] [0; 0])).
Proof.
  assert (Hx : Forall (fun x => Rabs (x - 0) <= 1e150) [1; 2]).
  { repeat constructor; rewrite Rabs_right; lra. }
  assert (Hy : Forall (fun y => Rabs (y - 0) <= 1e150) [0; 0]).
  { repeat constructor; rewrite Rabs_right; lra. }
  split; [repeat split; assumption |].
  apply (radial_derivatives_array_elementwise [1; 2] [0; 0] 1 1 0 0);
    [reflexivity | exact Hx | exact Hy].
Defined.

Lemma zip_with_ext_nth (P : R -> R -> Prop) (f g : R -> R -> R)
      (xs ys : list R) :
  (forall x y, P x y -> f x y = g x y) ->
  length xs = length ys ->
  (forall i, (i < length xs)%nat -> P (nth i xs 0) (nth i ys 0)) ->
  zip_with f xs ys = zip_with g xs ys.
Proof.
  intros Hfg. revert ys. induction xs as [|x xs IH]; intros [|y ys] Hlen HP;
    simpl in *; try reflexivity; try discriminate.
  rewrite (Hfg x y) by (apply (HP 0%nat); lia).
  rewrite (IH ys); [reflexivity | lia |].
  intros i Hi. apply (HP (S i)). lia.
Qed.

Lemma radii_lists (G : R -> R) (cx cy : R) (xs ys : list R) :
  map G
    (map sqrt
       (zip_with Rplus
          (zip_with Rmult (map (fun v => v - cx) xs) (map (fun v => v - cx) xs))
          (zip_with Rmult (map (fun v => v - cy) ys) (map (fun v => v - cy) ys))))
  = zip_with (fun x y => G (radius x y cx cy)) xs ys.
Proof.
  revert ys. induction xs as [|x xs IH]; intros [|y ys]; simpl;
    try reflexivity.
  rewrite IH. reflexivity.
Qed.

(** On arrays of equal length none of whose radii is exactly r_trunc or
    2 r_trunc, [function] is the scalar potential of every pair, in
    order. *)
Theorem function_array_off_boundaries xs ys theta_E r_trunc cx cy :
  length xs = length ys ->
  (forall i, (i < length xs)%nat ->
     radius (nth i xs 0) (nth i ys 0) cx cy <> r_trunc
     /\ radius (nth i xs 0) (nth i ys 0) cx cy <> 2 * r_trunc) ->
  function (Array xs) (Array ys) theta_E r_trunc cx cy
  = Array (zip_with
             (fun x y => scalar_of (function (Scalar x) (Scalar y)
                                      theta_E r_trunc cx cy))
             xs ys).
Proof.
  intros Hlen Hoff. rewrite function_array_elems, radii_lists. f_equal.
  apply (zip_with_ext_nth
           (fun x y => radius x y cx cy <> r_trunc
                       /\ radius x y cx cy <> 2 * r_trunc));
    [| exact Hlen | exact Hoff].
  intros x y [H1 H2]. rewrite function_scalar_radial. simpl scalar_of.
  apply function_array_elem_off_boundary;
    [apply radius_nonneg | exact H1 | exact H2].
Qed.

Lemma function_array_off_boundaries_witness :
  let xs : list R := [0.5; 3] in
  let ys : list R := [0; 0] in
  (length xs = length ys
   /\ (forall i, (i < length xs)%nat ->
         radius (nth i xs 0) (nth i ys 0) 0 0 <> 1
         /\ radius (nth i xs 0) (nth i ys 0) 0 0 <> 2 * 1))
  /\ function (Array xs) (Array ys) 1 1 0 0
     = Array (zip_with
                (fun x y => scalar_of (function (Scalar x) (Scalar y) 1 1 0 0))
                xs ys).
Proof.
  intros xs ys.
  assert (H : forall i, (i < length xs)%nat ->
                radius (nth i xs 0) (nth i ys 0) 0 0 <> 1
                /\ radius (nth i xs 0) (nth i ys 0) 0 0 <> 2 * 1).
  { intros [|[|i]] Hi; simpl in *; try lia;
      rewrite radius_on_x_axis by lra; lra. }
  split; [split; [reflexivity | exact H] |].
  apply (function_array_off_boundaries xs ys 1 1 0 0);
    [reflexivity | exact H].
Defined.

(** At a radius between 1e-100 and 1e100 (whose square and cube are
    neither lost nor out of range as doubles) [_dr_dx] returns the unit
    vector towards the point and [_d2r_dx2] the second derivatives of the
    radius that go with it; at the origin the guard r := 1 makes both
    return zeros instead of dividing by zero. *)
Theorem dr_dx_unit_vector x y :
  (x = 0 /\ y = 0) \/ 1e-100 <= sqrt (x * x + y * y) <= 1e100 ->
  exists u v a b c : R,
    _dr_dx (Scalar x) (Scalar y) = (Scalar u, Scalar v)
    /\ _d2r_dx2 (Scalar x) (Scalar y) = (Scalar a, Scalar b, Scalar c)
    /\ (x = 0 /\ y = 0 ->
        u = 0 /\ v = 0 /\ a = 0 /\ b = 0 /\ c = 0)
    /\ (x <> 0 \/ y <> 0 ->
        let r := sqrt (x * x + y * y) in
        u * u + v * v = 1
        /\ u * r = x /\ v * r = y
        /\ a = (1 - u * u) / r /\ b = (1 - v * v) / r /\ c = - (u * v) / r).
Proof.
  intros _. rewrite dr_dx_scalar, d2r_dx2_scalar. do 5 eexists.
  split; [reflexivity |]. split; [reflexivity |].
  pose proof (sqrt_pos (x * x + y * y)) as Hr.
  pose proof (sqrt_sum_square x y) as Hrr.
  pose proof (sqrt_sum_zero x y) as Hr0.
  set (r := sqrt (x * x + y * y)) in *.
  split.
  - intros [-> ->]. unfold Rdiv. repeat split; ring.
  - intros Hxy. cbv zeta.
    assert (Hrne : r <> 0) by (intros E; destruct (Hr0 E); destruct Hxy; lra).
    assert (Hg : guarded r = r)
      by (unfold guarded; rewrite Req_b_false by exact Hrne; reflexivity).
    rewrite Hg.
    assert (Hone : (x * x + y * y) / (r * r) = 1)
      by (rewrite <- Hrr; field; exact Hrne).
    repeat split.
    + replace (x / r * (x / r) + y / r * (y / r))
        with ((x * x + y * y) / (r * r)) by (field; exact Hrne).
      exact Hone.
    + field; exact Hrne.
    + field; exact Hrne.
    + replace ((1 - x / r * (x / r)) / r)
        with (((x * x + y * y) / (r * r) - x * x / (r * r)) / r)
        by (rewrite Hone; field; exact Hrne).
      field; exact Hrne.
    + replace ((1 - y / r * (y / r)) / r)
        with (((x * x + y * y) / (r * r) - y * y / (r * r)) / r)
        by (rewrite Hone; field; exact Hrne).
      field; exact Hrne.
    + field; exact Hrne.
Qed.

Lemma dr_dx_unit_vector_witness :
  (((3 = 0 /\ 4 = 0) \/ 1e-100 <= sqrt (3 * 3 + 4 * 4) <= 1e100)
   /\ (3 <> 0 \/ 4 <> 0))
  /\ exists u v : R,
      _dr_dx (Scalar 3) (Scalar 4) = (Scalar u, Scalar v)
      /\ u * u + v * v = 1.
Proof.
  assert (Hr : sqrt (3 * 3 + 4 * 4) = 5) by (apply sqrt_lem_1; lra).
  assert (Hrange : (3 = 0 /\ 4 = 0) \/ 1e-100 <= sqrt (3 * 3 + 4 * 4) <= 1e100)
    by (right; rewrite Hr; lra).
  assert (H : 3 <> 0 \/ 4 <> 0) by (left; lra).
  split; [split; assumption |].
  destruct (dr_dx_unit_vector 3 4 Hrange)
    as (u & v & a & b & c & H1 & _ & _ & H4).
  exists u, v. split; [exact H1 |]. apply (H4 H).
Defined.

End SIS_more.

(** ** Further properties of the elliptical slice *)

Module ElliSLICE_more.
Import ElliSLICE ElliSLICE_facts.

(** [sign] picks the square-root branch in the closed right half plane:
    it is 1 or -1, sign(z) z has a non-negative real part, and a
    non-negative imaginary part when the real part is zero; away from
    zero it is odd. *)
Theorem sign_selects_right_half_plane (z : C) :
  (sign z = 1 \/ sign z = -1)
  /\ 0 <= re (Rmul_c (sign z) z)
  /\ (re (Rmul_c (sign z) z) = 0 -> 0 <= im (Rmul_c (sign z) z))
  /\ (re z <> 0 \/ im z <> 0 ->
      sign (mkC (- re z) (- im z)) = - sign z).
Proof.
  destruct z as [x y]. unfold sign, Rmul_c, Rgt_b, Rge_b; simpl.
  destruct (Rtotal_order x 0) as [Hx | [Hx | Hx]];
    destruct (Rtotal_order y 0) as [Hy | [Hy | Hy]];
    decide_cmp; simpl;
    (split; [auto |]); (split; [lra |]); (split; [lra |]);
    intros Hz; try lra; destruct Hz; lra.
Qed.

Lemma sign_selects_right_half_plane_witness :
  (re (mkC 0 (-1)) <> 0 \/ im (mkC 0 (-1)) <> 0)
  /\ sign (mkC (- re (mkC 0 (-1))) (- im (mkC 0 (-1)))) = - sign (mkC 0 (-1)).
Proof.
  assert (H : re (mkC 0 (-1)) <> 0 \/ im (mkC 0 (-1)) <> 0)
    by (right; simpl; lra).
  split; [exact H |].
  apply (proj2 (proj2 (proj2 (sign_selects_right_half_plane (mkC 0 (-1)))))).
  exact H.
Defined.

(** *** Inside the ellipse *)

Lemma alpha_in_form x y k :
  a k + b k <> 0 ->
  alpha_in x y k
  = let e := (a k - b k) / (a k + b k) in
    Ok ((x - e * (x * cos (2 * psi k) + y * sin (2 * psi k))) * sigma_0 k,
        (y - e * (x * sin (2 * psi k) - y * cos (2 * psi k))) * sigma_0 k).
Proof.
  intros H. unfold alpha_in. rewrite pydiv_ok by exact H. simpl.
  rewrite exp_0. f_equal. f_equal; ring.
Qed.

Lemma deflection_within a b psi sigma_0 cx cy x y :
  within a b psi cx cy x y ->
  deflection a b psi sigma_0 cx cy x y
  = alpha_in (x - cx) (y - cy) (mk_kwargs cx cy a b psi sigma_0).
Proof. intros H. unfold deflection. unfold within in H. rewrite H. reflexivity. Qed.

Lemma within_center a b psi cx cy :
  0 < a -> 0 < b -> within a b psi cx cy cx cy.
Proof.
  intros Ha Hb. unfold within. rewrite inside_nonzero by lra. apply Rle_b_true.
  replace (cx - cx) with 0 by ring. replace (cy - cy) with 0 by ring.
  replace ((0 * cos psi + 0 * sin psi) ^ 2 / a ^ 2
           + (- 0 * sin psi + 0 * cos psi) ^ 2 / b ^ 2) with 0
    by (field; lra).
  lra.
Qed.

Lemma within_round_disc a psi cx cy x y :
  0 < a ->
  (x - cx) * (x - cx) + (y - cy) * (y - cy) <= a * a ->
  within a a psi cx cy x y.
Proof.
  intros Ha H. unfold within. rewrite inside_nonzero by lra. apply Rle_b_true.
  pose proof (sin2_cos2 psi) as Hsc. unfold Rsqr in Hsc.
  set (u := x - cx) in *. set (v := y - cy) in *.
  replace ((u * cos psi + v * sin psi) ^ 2 / a ^ 2
           + (- u * sin psi + v * cos psi) ^ 2 / a ^ 2)
    with ((u * u + v * v) * (sin psi * sin psi + cos psi * cos psi) / (a * a))
    by (field; lra).
  rewrite Hsc, Rmult_1_r.
  apply Rmult_le_reg_r with (a * a); [nra |].
  unfold Rdiv. rewrite Rmult_assoc, Rinv_l by nra. lra.
Qed.

(** On a round slice a = b, with a between 1e-150 and 1e150 and an
    orientation psi of at most 1e150 in absolute value, every point of
    the disc of radius a that stays off its rim by a relative margin of
    1e-9 on the squared distance (which covers the rounding of the
    membership test) has the deflection sigma_0 times the centered
    position, whatever psi is. *)
Theorem round_slice_inside_deflection x y a psi sigma_0 cx cy :
  1e-150 <= a <= 1e150 -> Rabs psi <= 1e150 ->
  (x - cx) * (x - cx) + (y - cy) * (y - cy) <= a * a * (1 - 1e-9) ->
  derivatives (Scalar x) (Scalar y) a a psi sigma_0 cx cy
  = Ok (Scalar ((x - cx) * sigma_0), Scalar ((y - cy) * sigma_0)).
Proof.
  intros Ha _ Hin. rewrite derivatives_scalar.
  assert (Haa : 0 <= a * a) by nra.
  rewrite deflection_within by (apply within_round_disc; nra).
  rewrite alpha_in_form by (simpl; lra). cbv zeta. simpl.
  replace ((a - a) / (a + a)) with 0 by (field; lra).
  do 2 f_equal; f_equal; ring.
Qed.

Lemma round_slice_inside_deflection_witness :
  (1e-150 <= 2 <= 1e150 /\ Rabs 0.3 <= 1e150
   /\ (1 - 0) * (1 - 0) + (1 - 0) * (1 - 0) <= 2 * 2 * (1 - 1e-9))
  /\ derivatives (Scalar 1) (Scalar 1) 2 2 0.3 1 0 0
     = Ok (Scalar ((1 - 0) * 1), Scalar ((1 - 0) * 1)).
Proof.
  assert (Hpsi : Rabs 0.3 <= 1e150) by (rewrite Rabs_right; lra).
  split; [repeat split; try assumption; lra |].
  apply (round_slice_inside_deflection 1 1 2 0.3 1 0 0);
    [lra | exact Hpsi | lra].
Defined.

(** *** The inside deflection is the gradient of the inside potential *)

Lemma derivable_pt_lim_quadratic (f : R -> R) (r A B : R) :
  (forall s, f s - f r - B * (s - r) = A * ((s - r) * (s - r))) ->
  derivable_pt_lim f r B.
Proof.
  intros Hq eps Heps.
  assert (Hd : 0 < eps / (Rabs A + 1)).
  { apply Rdiv_lt_0_compat; [exact Heps |]. pose proof (Rabs_pos A). lra. }
  exists (mkposreal _ Hd). simpl. intros h Hh Hlt.
  pose proof (Hq (r + h)) as E. replace (r + h - r) with h in E by ring.
  replace ((f (r + h) - f r) / h - B) with (A * h)
    by (apply Rmult_eq_reg_r with h; [| exact Hh]; field_simplify; [| exact Hh];
        lra).
  rewrite Rabs_mult. pose proof (Rabs_pos A) as HA.
  assert (Hm : (Rabs A + 1) * (eps / (Rabs A + 1)) = eps) by (field; lra).
  assert (Hle : Rabs A * Rabs h <= Rabs A * (eps / (Rabs A + 1)))
    by (apply Rmult_le_compat_l; lra).
  lra.
Qed.

(** [alpha_in] is the gradient of [pot_in]: its two components are the
    partial derivatives of the inside potential in x and in y. *)
Theorem alpha_in_is_gradient_of_pot_in x y k :
  a k + b k <> 0 ->
  exists ax ay : R,
    alpha_in x y k = Ok (ax, ay)
    /\ derivable_pt_lim (fun t => res_value (pot_in t y k)) x ax
    /\ derivable_pt_lim (fun t => res_value (pot_in x t k)) y ay.
Proof.
  intros Hab. rewrite alpha_in_form by exact Hab. cbv zeta.
  do 2 eexists. split; [reflexivity |].
  assert (Hpot : forall u v,
             res_value (pot_in u v k)
             = 0.5 * ((1 - (a k - b k) / (a k + b k))
                      * (u * cos (psi k) + v * sin (psi k)) ^ 2
                      + (1 + (a k - b k) / (a k + b k))
                        * (v * cos (psi k) - u * sin (psi k)) ^ 2)
               * sigma_0 k
               + sigma_0 k * ((a k + b k) / 2) ^ 2
                 * (1 - ((a k - b k) / (a k + b k)) ^ 2)
                 * ln ((a k + b k) / 2)).
  { intros u v. unfold pot_in. rewrite pydiv_ok by exact Hab. reflexivity. }
  set (e := (a k - b k) / (a k + b k)) in *.
  rewrite cos_2a, sin_2a.
  pose proof (sin2_cos2 (psi k)) as Hsc. unfold Rsqr in Hsc.
  set (c := cos (psi k)) in *. set (s := sin (psi k)) in *.
  split.
  - replace ((x - e * (x * (c * c - s * s) + y * (2 * s * c))) * sigma_0 k)
      with ((x * (s * s + c * c)
             - e * (x * (c * c - s * s) + y * (2 * s * c))) * sigma_0 k)
      by (rewrite Hsc; ring).
    apply (derivable_pt_lim_quadratic _ x
             (0.5 * sigma_0 k * ((1 - e) * (c * c) + (1 + e) * (s * s)))).
    intros t. rewrite !Hpot. replace 0.5 with (1 / 2) by lra. field.
  - replace ((y - e * (x * (2 * s * c) - y * (c * c - s * s))) * sigma_0 k)
      with ((y * (s * s + c * c)
             - e * (x * (2 * s * c) - y * (c * c - s * s))) * sigma_0 k)
      by (rewrite Hsc; ring).
    apply (derivable_pt_lim_quadratic _ y
             (0.5 * sigma_0 k * ((1 - e) * (s * s) + (1 + e) * (c * c)))).
    intros t. rewrite !Hpot. replace 0.5 with (1 / 2) by lra. field.
Qed.

Lemma alpha_in_is_gradient_of_pot_in_witness :
  let k := mk_kwargs 0 0 2 1 0.3 1 in
  a k + b k <> 0
  /\ exists ax ay : R,
      alpha_in 0.5 0.25 k = Ok (ax, ay)
      /\ derivable_pt_lim (fun t => res_value (pot_in t 0.25 k)) 0.5 ax
      /\ derivable_pt_lim (fun t => res_value (pot_in 0.5 t k)) 0.25 ay.
Proof.
  intros k. assert (H : a k + b k <> 0) by (simpl; lra).
  split; [exact H |].
  apply (alpha_in_is_gradient_of_pot_in 0.5 0.25 k H).
Defined.

(** *** Translations *)

Lemma vadd_vadd_comm (x : value) (c d : R) :
  vadd (vadd x (Scalar c)) (Scalar d) = vadd (vadd x (Scalar d)) (Scalar c).
Proof.
  destruct x as [v | vs]; simpl.
  - f_equal. ring.
  - f_equal. rewrite !map_map. apply map_ext. intros v. ring.
Qed.

Lemma function_shift x y a b psi sigma_0 cx cy dx dy :
  function (vadd x (Scalar dx)) (vadd y (Scalar dy)) a b psi sigma_0
    (cx + dx) (cy + dy)
  = function x y a b psi sigma_0 cx cy.
Proof. unfold function. rewrite !SIS_more.vsub_shift. reflexivity. Qed.

Lemma derivatives_shift x y a b psi sigma_0 cx cy dx dy :
  derivatives (vadd x (Scalar dx)) (vadd y (Scalar dy)) a b psi sigma_0
    (cx + dx) (cy + dy)
  = derivatives x y a b psi sigma_0 cx cy.
Proof. unfold derivatives. rewrite !SIS_more.vsub_shift. reflexivity. Qed.

(** The three operations of the slice only see the position relative to
    the center: moving the coordinates (scalars or arrays) and the center
    by the same vector changes none of them, the finite-difference
    Hessian included. *)
Theorem slice_translation_invariant
        (x y : value) (a b psi sigma_0 cx cy dx dy : R) :
  function (vadd x (Scalar dx)) (vadd y (Scalar dy)) a b psi sigma_0
    (cx + dx) (cy + dy)
  = function x y a b psi sigma_0 cx cy
  /\ derivatives (vadd x (Scalar dx)) (vadd y (Scalar dy)) a b psi sigma_0
       (cx + dx) (cy + dy)
     = derivatives x y a b psi sigma_0 cx cy
  /\ hessian (vadd x (Scalar dx)) (vadd y (Scalar dy)) a b psi sigma_0
       (cx + dx) (cy + dy)
     = hessian x y a b psi sigma_0 cx cy.
Proof.
  split; [apply function_shift |]. split; [apply derivatives_shift |].
  unfold hessian.
  rewrite (vadd_vadd_comm x dx), (vadd_vadd_comm y dy).
  rewrite !derivatives_shift. reflexivity.
Qed.

(** *** Arrays *)




(** On empty arrays [function] returns an empty array, while
    [derivatives] and [hessian] raise IndexError. *)
Theorem slice_empty_arrays a b psi sigma_0 cx cy :
  function (Array []) (Array []) a b psi sigma_0 cx cy = Ok (Array [])
  /\ derivatives (Array []) (Array []) a b psi sigma_0 cx cy
     = Raise IndexError
  /\ hessian (Array []) (Array []) a b psi sigma_0 cx cy = Raise IndexError.
Proof. repeat split; reflexivity. Qed.

(** *** The round slice *)

(** On a round slice a = b > 0 the potential raises ZeroDivisionError at
    every scalar point outside the disc, whatever psi, sigma_0 and the
    center. *)
Theorem round_slice_potential_raises_outside x y a psi sigma_0 cx cy :
  0 < a ->
  a * a < (x - cx) * (x - cx) + (y - cy) * (y - cy) ->
  function (Scalar x) (Scalar y) a a psi sigma_0 cx cy
  = Raise ZeroDivisionError.
Proof.
  intros Ha Hout. rewrite function_scalar. unfold potential.
  assert (Hin : inside ((x - cx) * cos psi + (y - cy) * sin psi)
                  (- (x - cx) * sin psi + (y - cy) * cos psi) a a = false).
  { rewrite inside_nonzero by lra. apply Rle_b_false.
    pose proof (sin2_cos2 psi) as Hsc. unfold Rsqr in Hsc.
    set (u := x - cx) in *. set (v := y - cy) in *.
    replace ((u * cos psi + v * sin psi) ^ 2 / a ^ 2
             + (- u * sin psi + v * cos psi) ^ 2 / a ^ 2)
      with ((u * u + v * v) * (sin psi * sin psi + cos psi * cos psi)
            / (a * a)) by (field; lra).
    rewrite Hsc, Rmult_1_r. intros Hle.
    apply (Rmult_le_compat_r (a * a)) in Hle; [| nra].
    unfold Rdiv in Hle. rewrite Rmult_assoc, Rinv_l in Hle by nra. lra. }
  rewrite Hin. rewrite pot_ext_round; simpl; [reflexivity | reflexivity | lra].
Qed.

Lemma round_slice_potential_raises_outside_witness :
  (0 < 1 /\ 1 * 1 < (3 - 0) * (3 - 0) + (4 - 0) * (4 - 0))
  /\ function (Scalar 3) (Scalar 4) 1 1 0.3 1 0 0 = Raise ZeroDivisionError.
Proof.
  split; [lra |].
  apply (round_slice_potential_raises_outside 3 4 1 0.3 1 0 0); lra.
Defined.

End ElliSLICE_more.

(** ** Properties of Util/data_util.py *)

Module data_util_facts.
Import data_util.

Lemma ln_10_pos : 0 < ln 10.
Proof. rewrite <- ln_1. apply ln_increasing; lra. Qed.

Lemma log10_Rpower x : log10 (Rpower 10 x) = x.
Proof.
  unfold log10. rewrite ln_Rpower. pose proof ln_10_pos. field. lra.
Qed.

Lemma log10_10 : log10 10 = 1.
Proof. unfold log10. pose proof ln_10_pos. field. lra. Qed.

Lemma log10_mult x y : 0 < x -> 0 < y -> log10 (x * y) = log10 x + log10 y.
Proof.
  intros Hx Hy. unfold log10. rewrite ln_mult by assumption.
  pose proof ln_10_pos. field. lra.
Qed.

Lemma Rpower_10_pos x : 0 < Rpower 10 x.
Proof. unfold Rpower. apply exp_pos. Qed.

(** For a magnitude within 700 of the zero point (so that the power of
    ten is a double, neither zero nor out of range), [magnitude2cps]
    inverts the zero-point formula of its docstring,
    m = -2.5 log10(counts) + zero point, and its counts are positive. *)
Theorem magnitude2cps_inverts_zero_point_formula m zp :
  Rabs (m - zp) <= 700 ->
  0 < magnitude2cps m zp
  /\ -2.5 * log10 (magnitude2cps m zp) + zp = m.
Proof.
  intros _. unfold magnitude2cps. split; [apply Rpower_10_pos |].
  rewrite log10_Rpower. lra.
Qed.

Lemma magnitude2cps_inverts_zero_point_formula_witness :
  Rabs (20 - 25) <= 700
  /\ 0 < magnitude2cps 20 25
  /\ -2.5 * log10 (magnitude2cps 20 25) + 25 = 20.
Proof.
  assert (H : Rabs (20 - 25) <= 700) by (rewrite Rabs_left; lra).
  split; [exact H |].
  apply (magnitude2cps_inverts_zero_point_formula 20 25 H).
Defined.

(** An object at the zero point gives one count per second; 2.5
    magnitudes brighter is ten times the counts; fainter objects give
    strictly fewer counts; only the difference to the zero point
    matters. *)
Theorem magnitude2cps_scale m m' zp d :
  magnitude2cps zp zp = 1
  /\ magnitude2cps (m - 2.5) zp = 10 * magnitude2cps m zp
  /\ (m < m' -> magnitude2cps m' zp < magnitude2cps m zp)
  /\ magnitude2cps (m + d) (zp + d) = magnitude2cps m zp.
Proof.
  unfold magnitude2cps. repeat split.
  - replace (- (zp - zp) / 2.5) with 0 by lra. apply Rpower_O. lra.
  - replace (- (m - 2.5 - zp) / 2.5) with (- (m - zp) / 2.5 + 1) by lra.
    rewrite Rpower_plus, Rpower_1 by lra. ring.
  - intros H. apply Rpower_lt; lra.
  - f_equal. lra.
Qed.

Lemma magnitude2cps_scale_witness :
  20 < 21 /\ magnitude2cps 21 25 < magnitude2cps 20 25.
Proof.
  split; [lra |].
  apply (proj1 (proj2 (proj2 (magnitude2cps_scale 20 21 25 0)))). lra.
Defined.

Lemma apparent_magnitude_tenfold M d :
  0 < d ->
  absolute2apparent_magnitude M (10 * d)
  = absolute2apparent_magnitude M d + 5.8.
Proof.
  intros Hd. unfold absolute2apparent_magnitude.
  rewrite log10_mult by lra. rewrite log10_10. lra.
Qed.

(** At 10 parsec the apparent magnitude is the absolute one; for a
    positive distance it grows strictly with the distance, and ten times
    the distance adds exactly 5.8 magnitudes. *)
Theorem absolute2apparent_magnitude_distance M d d' :
  absolute2apparent_magnitude M 10 = M
  /\ (0 < d ->
      absolute2apparent_magnitude M (10 * d)
      = absolute2apparent_magnitude M d + 5.8)
  /\ (0 < d -> d < d' ->
      absolute2apparent_magnitude M d < absolute2apparent_magnitude M d').
Proof.
  repeat split.
  - unfold absolute2apparent_magnitude. rewrite log10_10. lra.
  - intros Hd. apply (apparent_magnitude_tenfold M d Hd).
  - intros Hd Hlt. unfold absolute2apparent_magnitude, log10.
    pose proof ln_10_pos as H10.
    pose proof (ln_increasing d d' Hd Hlt) as Hln.
    assert (ln d / ln 10 < ln d' / ln 10).
    { unfold Rdiv. apply Rmult_lt_compat_r; [| exact Hln].
      apply Rinv_0_lt_compat. exact H10. }
    lra.
Qed.

Lemma absolute2apparent_magnitude_distance_witness :
  (0 < 20 /\ 20 < 30)
  /\ absolute2apparent_magnitude 1 20 < absolute2apparent_magnitude 1 30.
Proof.
  split; [lra |].
  apply (proj2 (proj2 (absolute2apparent_magnitude_distance 1 20 30)));
    lra.
Defined.

(** The two conversions composed: an object moved ten times farther away
    gives 10 ** -2.32 times the counts, which is less than the hundredth
    of an inverse-square dimming. *)
Theorem counts_at_tenfold_distance M d zp :
  0 < d ->
  magnitude2cps (absolute2apparent_magnitude M (10 * d)) zp
  = Rpower 10 (-2.32) * magnitude2cps (absolute2apparent_magnitude M d) zp
  /\ magnitude2cps (absolute2apparent_magnitude M (10 * d)) zp
     < magnitude2cps (absolute2apparent_magnitude M d) zp / 100.
Proof.
  intros Hd. rewrite (apparent_magnitude_tenfold M d Hd).
  set (m := absolute2apparent_magnitude M d).
  assert (E : magnitude2cps (m + 5.8) zp
              = Rpower 10 (-2.32) * magnitude2cps m zp).
  { unfold magnitude2cps.
    replace (- (m + 5.8 - zp) / 2.5) with (-2.32 + - (m - zp) / 2.5) by lra.
    apply Rpower_plus. }
  split; [exact E |]. rewrite E.
  assert (Hlt : Rpower 10 (-2.32) < / 100).
  { replace (/ 100) with (Rpower 10 (-2)).
    - apply Rpower_lt; lra.
    - replace (-2) with (- INR 2) by (simpl; ring).
      rewrite Rpower_Ropp, Rpower_pow by lra. simpl. f_equal. ring. }
  assert (Hpos : 0 < magnitude2cps m zp)
    by (unfold magnitude2cps; apply Rpower_10_pos).
  unfold Rdiv. rewrite (Rmult_comm _ (/ 100)).
  apply Rmult_lt_compat_r; assumption.
Qed.

Lemma counts_at_tenfold_distance_witness :
  0 < 20
  /\ magnitude2cps (absolute2apparent_magnitude 1 (10 * 20)) 25
     = Rpower 10 (-2.32) * magnitude2cps (absolute2apparent_magnitude 1 20) 25.
Proof.
  split; [lra |].
  apply (proj1 (counts_at_tenfold_distance 1 20 25 ltac:(lra))).
Defined.

(** For a positive exposure time the shot noise squared times the
    exposure time is the squared count rate, and four times the exposure
    halves the noise. *)
Theorem flux_noise_exposure cps t :
  0 < t ->
  flux_noise cps t * flux_noise cps t * t = cps * cps
  /\ flux_noise cps (4 * t) = flux_noise cps t / 2.
Proof.
  intros Ht. unfold flux_noise.
  pose proof (sqrt_lt_R0 t Ht) as Hs.
  pose proof (sqrt_def t (Rlt_le _ _ Ht)) as Hss.
  split.
  - replace (cps / sqrt t * (cps / sqrt t) * t)
      with (cps * cps * (t / (sqrt t * sqrt t))) by (field; lra).
    rewrite Hss. field. lra.
  - rewrite sqrt_mult by lra.
    replace (sqrt 4) with 2 by (symmetry; apply sqrt_lem_1; lra).
    field. lra.
Qed.

Lemma flux_noise_exposure_witness :
  0 < 100
  /\ flux_noise 3 100 * flux_noise 3 100 * 100 = 3 * 3
  /\ flux_noise 3 (4 * 100) = flux_noise 3 100 / 2.
Proof.
  split; [lra |]. apply (flux_noise_exposure 3 100). lra.
Defined.

(** For positive exposure time and number of exposures the background
    noise is non-negative and its variance is
    (N ron^2 + N t (sky pix^2)^2) / (N t)^2; without sky it is
    |ron| / (sqrt(N) t), so four times the exposures halve it. *)
Theorem bkg_noise_variance ron t sky pix N :
  0 < t -> 0 < N ->
  0 <= bkg_noise ron t sky pix N
  /\ bkg_noise ron t sky pix N * bkg_noise ron t sky pix N
     = (N * ron ^ 2 + N * t * (sky * pix ^ 2) ^ 2) / (N * t) ^ 2
  /\ bkg_noise ron t 0 pix N = Rabs ron / (sqrt N * t)
  /\ bkg_noise ron t 0 pix (4 * N) = bkg_noise ron t 0 pix N / 2.
Proof.
  intros Ht HN. unfold bkg_noise.
  assert (HNt : 0 < N * t) by (apply Rmult_lt_0_compat; assumption).
  assert (Hz : forall M, 0 < M ->
             sqrt (M * ron ^ 2 + M * t * (0 * pix ^ 2) ^ 2) / (M * t)
             = Rabs ron / (sqrt M * t)).
  { intros M HM.
    replace (M * ron ^ 2 + M * t * (0 * pix ^ 2) ^ 2) with (M * ron²)
      by (unfold Rsqr; ring).
    rewrite sqrt_mult by (try lra; apply Rle_0_sqr).
    rewrite sqrt_Rsqr_abs.
    pose proof (sqrt_lt_R0 M HM) as Hs.
    pose proof (sqrt_def M (Rlt_le _ _ HM)) as Hss.
    rewrite <- Hss at 2. field. lra. }
  split; [| split; [| split]].
  - apply Rmult_le_pos; [apply sqrt_pos |].
    left. apply Rinv_0_lt_compat. exact HNt.
  - set (V := N * ron ^ 2 + N * t * (sky * pix ^ 2) ^ 2).
    assert (HV : 0 <= V).
    { unfold V. apply Rplus_le_le_0_compat.
      - apply Rmult_le_pos; [lra |]. apply pow2_ge_0.
      - apply Rmult_le_pos; [lra |]. apply pow2_ge_0. }
    replace (sqrt V / (N * t) * (sqrt V / (N * t)))
      with (sqrt V * sqrt V / (N * t) ^ 2) by (field; lra).
    rewrite sqrt_def by exact HV. reflexivity.
  - apply Hz. exact HN.
  - rewrite !Hz by lra. rewrite sqrt_mult by lra.
    replace (sqrt 4) with 2 by (symmetry; apply sqrt_lem_1; lra).
    pose proof (sqrt_lt_R0 N HN). field. lra.
Qed.

Lemma bkg_noise_variance_witness :
  (0 < 100 /\ 0 < 1)
  /\ 0 <= bkg_noise 5 100 0.2 0.05 1.
Proof.
  split; [lra |].
  apply (proj1 (bkg_noise_variance 5 100 0.2 0.05 1 ltac:(lra) ltac:(lra))).
Defined.

End data_util_facts.

(** ** Properties of the class attributes *)

Module params_facts.

(** Every parameter of the truncated radial profile has a default lower
    and upper limit, the lower one strictly below the upper one, and the
    limit tables have no other keys. *)
Theorem SIS_truncate_limits_cover_param_names :
  (forall name, In name SIS_truncate_params.param_names ->
     exists lo hi : R,
       dict_get SIS_truncate_params.lower_limit_default name = Some lo
       /\ dict_get SIS_truncate_params.upper_limit_default name = Some hi
       /\ lo < hi)
  /\ dict_keys SIS_truncate_params.lower_limit_default
     = SIS_truncate_params.param_names
  /\ dict_keys SIS_truncate_params.upper_limit_default
     = SIS_truncate_params.param_names.
Proof.
  split; [| split; reflexivity].
  intros name Hin. simpl in Hin.
  destruct Hin as [<- | [<- | [<- | [<- | []]]]]; simpl;
    do 2 eexists; (split; [reflexivity |]); (split; [reflexivity |]); lra.
Qed.

(** The elliptical slice lists sigma_0 among its parameters but neither
    limit table has an entry for it; every other parameter has both
    limits, the lower one strictly below the upper one, and psi ranges
    over [-pi/2, pi/2]. *)
Theorem ElliSLICE_limits_miss_sigma_0 :
  In "sigma_0"%string ElliSLICE_params.param_names
  /\ dict_get ElliSLICE_params.lower_limit_default "sigma_0"%string = None
  /\ dict_get ElliSLICE_params.upper_limit_default "sigma_0"%string = None
  /\ (forall name, In name ElliSLICE_params.param_names ->
        name <> "sigma_0"%string ->
        exists lo hi : R,
          dict_get ElliSLICE_params.lower_limit_default name = Some lo
          /\ dict_get ElliSLICE_params.upper_limit_default name = Some hi
          /\ lo < hi)
  /\ (exists lo hi : R,
        dict_get ElliSLICE_params.lower_limit_default "psi"%string = Some lo
        /\ dict_get ElliSLICE_params.upper_limit_default "psi"%string = Some hi
        /\ lo = - (PI / 2) /\ hi = PI / 2).
Proof.
  pose proof PI_RGT_0 as Hpi.
  split; [simpl; tauto |]. split; [reflexivity |]. split; [reflexivity |].
  split.
  - intros name Hin Hne. simpl in Hin.
    destruct Hin as [<- | [<- | [<- | [<- | [<- | [<- | []]]]]]]; simpl;
      try congruence;
      do 2 eexists; (split; [reflexivity |]); (split; [reflexivity |]); lra.
  - simpl. do 2 eexists. split; [reflexivity |]. split; [reflexivity |].
    split; lra.
Qed.

Lemma ElliSLICE_limits_miss_sigma_0_witness :
  (In "psi"%string ElliSLICE_params.param_names
   /\ "psi"%string <> "sigma_0"%string)
  /\ exists lo hi : R,
      dict_get ElliSLICE_params.lower_limit_default "psi"%string = Some lo
      /\ dict_get ElliSLICE_params.upper_limit_default "psi"%string = Some hi
      /\ lo < hi.
Proof.
  assert (H1 : In "psi"%string ElliSLICE_params.param_names)
    by (simpl; tauto).
  assert (H2 : "psi"%string <> "sigma_0"%string) by discriminate.
  split; [split; assumption |].
  apply (proj1 (proj2 (proj2 (proj2 ElliSLICE_limits_miss_sigma_0)))
           "psi"%string H1 H2).
Defined.

End params_facts.

(** ** Properties of LensModel/Optimizer/fixed_routines.py *)

Module fixed_routines_facts.
Import fixed_routines.

Lemma init_fields first l k self :
  init first l k = Okay self ->
  Ntovary self = 2%nat /\ k_start self = 2%nat
  /\ tovary_indicies self = [0%nat; 1%nat]
  /\ kwargs_lens self = k
  /\ to_vary_names self
     = [["theta_E"%string; "center_x"%string; "center_y"%string;
         "e1"%string; "e2"%string];
        ["e1"%string; "e2"%string]].
Proof.
  unfold init, list_item. destruct l as [|m0 [|m1 rest]]; simpl;
    try discriminate.
  - destruct (String.eqb m0 first); discriminate.
  - destruct (String.eqb m0 first); [| discriminate].
    destruct (String.eqb m1 "SHEAR"%string); [| discriminate].
    intros H. injection H as <-. simpl. repeat split.
Qed.

(** The constructor succeeds exactly on model lists that start with the
    class's first model followed by SHEAR.  An empty list, or a list that
    stops after the right first model, raises IndexError; any other list
    fails an assert.  A constructed object keeps the given kwargs_lens
    and has as many name lists and lens indices as Ntovary says. *)
Theorem init_accepts_exactly first l k :
  ((exists self, init first l k = Okay self)
   <-> exists rest, l = first :: "SHEAR"%string :: rest)
  /\ (l = [] \/ l = [first] -> init first l k = Fail ListIndexError)
  /\ (forall self, init first l k = Okay self ->
        kwargs_lens self = k
        /\ length (to_vary_names self) = Ntovary self
        /\ length (tovary_indicies self) = Ntovary self).
Proof.
  split; [| split].
  - split.
    + intros [self H]. unfold init, list_item in H.
      destruct l as [|m0 [|m1 rest]]; simpl in H; try discriminate.
      * destruct (String.eqb m0 first); discriminate.
      * destruct (String.eqb m0 first) eqn:E0; [| discriminate].
        destruct (String.eqb m1 "SHEAR"%string) eqn:E1; [| discriminate].
        apply String.eqb_eq in E0, E1. subst. exists rest. reflexivity.
    + intros [rest ->]. unfold init, list_item; simpl.
      rewrite String.eqb_refl. simpl. eexists. reflexivity.
  - intros [-> | ->]; unfold init, list_item; simpl; [reflexivity |].
    rewrite String.eqb_refl. reflexivity.
  - intros self H. destruct (init_fields _ _ _ _ H) as (H1 & _ & H3 & H4 & H5).
    rewrite H1, H3, H4, H5. repeat split.
Qed.

Lemma init_accepts_exactly_witness :
  ([] = @nil String.string \/ [] = ["SPEMD"%string])
  /\ init "SPEMD"%string [] [] = Fail ListIndexError.
Proof.
  assert (H : [] = @nil String.string \/ [] = ["SPEMD"%string])
    by (left; reflexivity).
  split; [exact H |].
  apply (proj1 (proj2 (init_accepts_exactly "SPEMD"%string [] [])) H).
Defined.

(** Without reoptimisation [get_param_ranges] never reads kwargs_lens: on
    every object it returns seven lower and seven upper limits, each
    lower limit strictly below its upper limit. *)
Theorem default_ranges_ordered (self : routine) :
  exists low high : list R,
    param_ranges self false = Okay (low, high)
    /\ length low = 7%nat /\ length high = 7%nat
    /\ forall i, (i < 7)%nat -> nth i low 0 < nth i high 0.
Proof.
  unfold param_ranges. do 2 eexists. split; [reflexivity |].
  split; [reflexivity |]. split; [reflexivity |].
  intros i Hi.
  do 7 (destruct i as [|i]; [simpl; lra |]). lia.
Qed.

Lemma lens_item_ok_inv k i key e :
  lens_item k i key = Fail e -> forall v, lens_item k i key <> Okay v.
Proof. intros H v. rewrite H. discriminate. Qed.

(** The seven lookups of a reoptimisation, in the order of the ranges. *)
Lemma param_ranges_reoptimize_ok self t cx cy e1 e2 g1 g2 :
  lens_item (kwargs_lens self) 0 "theta_E"%string = Okay t ->
  lens_item (kwargs_lens self) 0 "center_x"%string = Okay cx ->
  lens_item (kwargs_lens self) 0 "center_y"%string = Okay cy ->
  lens_item (kwargs_lens self) 0 "e1"%string = Okay e1 ->
  lens_item (kwargs_lens self) 0 "e2"%string = Okay e2 ->
  lens_item (kwargs_lens self) 1 "e1"%string = Okay g1 ->
  lens_item (kwargs_lens self) 1 "e2"%string = Okay g2 ->
  param_ranges self true
  = Okay ([t - 0.001; cx - 0.001; cy - 0.001; e1 - 0.005; e2 - 0.005;
           g1 - 0.005; g2 - 0.005],
          [t + 0.001; cx + 0.001; cy + 0.001; e1 + 0.005; e2 + 0.005;
           g1 + 0.005; g2 + 0.005]).
Proof.
  intros Ht Hcx Hcy He1 He2 Hg1 Hg2. unfold param_ranges.
  rewrite Ht, Hcx, Hcy, He1, He2, Hg1, Hg2. reflexivity.
Qed.

Lemma param_ranges_reoptimize_inv self low high :
  param_ranges self true = Okay (low, high) ->
  exists t cx cy e1 e2 g1 g2 : R,
    lens_item (kwargs_lens self) 0 "theta_E"%string = Okay t
    /\ lens_item (kwargs_lens self) 0 "center_x"%string = Okay cx
    /\ lens_item (kwargs_lens self) 0 "center_y"%string = Okay cy
    /\ lens_item (kwargs_lens self) 0 "e1"%string = Okay e1
    /\ lens_item (kwargs_lens self) 0 "e2"%string = Okay e2
    /\ lens_item (kwargs_lens self) 1 "e1"%string = Okay g1
    /\ lens_item (kwargs_lens self) 1 "e2"%string = Okay g2.
Proof.
  unfold param_ranges.
  destruct (lens_item (kwargs_lens self) 0 "e1"%string) as [e1|]; [| discriminate].
  destruct (lens_item (kwargs_lens self) 0 "e2"%string) as [e2|]; [| discriminate].
  destruct (lens_item (kwargs_lens self) 1 "e1"%string) as [g1|]; [| discriminate].
  destruct (lens_item (kwargs_lens self) 1 "e2"%string) as [g2|]; [| discriminate].
  destruct (lens_item (kwargs_lens self) 0 "theta_E"%string) as [t|]; [| discriminate].
  destruct (lens_item (kwargs_lens self) 0 "center_x"%string) as [cx|];
    [| discriminate].
  destruct (lens_item (kwargs_lens self) 0 "center_y"%string) as [cy|];
    [| discriminate].
  intros _. exists t, cx, cy, e1, e2, g1, g2. repeat split.
Qed.

(** On a constructed object a reoptimisation succeeds exactly when every
    varied parameter is present in kwargs_lens, and its ranges follow the
    order of to_vary_names: the i-th lower and upper limit bracket the
    current value of the i-th varied parameter, and for a value of at
    most 1e6 in absolute value they do so strictly, the bracket being
    between 0.0019 and 0.0101 wide. *)
Theorem reoptimize_ranges_bracket first l k self :
  init first l k = Okay self ->
  ((exists low high, param_ranges self true = Okay (low, high))
   <-> (forall p, In p (varied_parameters self) ->
          exists v, lens_item (kwargs_lens self) (fst p) (snd p) = Okay v))
  /\ (forall low high,
        param_ranges self true = Okay (low, high) ->
        length low = length (varied_parameters self)
        /\ length high = length (varied_parameters self)
        /\ forall i, (i < length (varied_parameters self))%nat ->
             exists v,
               lens_item (kwargs_lens self)
                 (fst (nth i (varied_parameters self) (0%nat, ""%string)))
                 (snd (nth i (varied_parameters self) (0%nat, ""%string)))
               = Okay v
               /\ nth i low 0 <= v <= nth i high 0
               /\ (Rabs v <= 1e6 ->
                   nth i low 0 < v < nth i high 0
                   /\ 0.0019 <= nth i high 0 - nth i low 0 <= 0.0101)).
Proof.
  intros Hinit.
  destruct (init_fields _ _ _ _ Hinit) as (_ & _ & H3 & _ & H5).
  assert (Hvar : varied_parameters self
                 = [(0%nat, "theta_E"%string); (0%nat, "center_x"%string);
                    (0%nat, "center_y"%string); (0%nat, "e1"%string);
                    (0%nat, "e2"%string); (1%nat, "e1"%string);
                    (1%nat, "e2"%string)]).
  { unfold varied_parameters. rewrite H3, H5. reflexivity. }
  rewrite Hvar. split.
  - split.
    + intros [low [high H]].
      destruct (param_ranges_reoptimize_inv _ _ _ H)
        as (t & cx & cy & e1 & e2 & g1 & g2 & Ht & Hcx & Hcy & He1 & He2
            & Hg1 & Hg2).
      intros p Hp. simpl in Hp.
      destruct Hp as [<- | [<- | [<- | [<- | [<- | [<- | [<- | []]]]]]]];
        simpl; eexists; eassumption.
    + intros H.
      destruct (H (0%nat, "theta_E"%string)) as [t Ht]; [simpl; tauto |].
      destruct (H (0%nat, "center_x"%string)) as [cx Hcx]; [simpl; tauto |].
      destruct (H (0%nat, "center_y"%string)) as [cy Hcy]; [simpl; tauto |].
      destruct (H (0%nat, "e1"%string)) as [e1 He1]; [simpl; tauto |].
      destruct (H (0%nat, "e2"%string)) as [e2 He2]; [simpl; tauto |].
      destruct (H (1%nat, "e1"%string)) as [g1 Hg1]; [simpl; tauto |].
      destruct (H (1%nat, "e2"%string)) as [g2 Hg2]; [simpl; tauto |].
      simpl in *. do 2 eexists.
      apply (param_ranges_reoptimize_ok self t cx cy e1 e2 g1 g2); assumption.
  - intros low high H.
    destruct (param_ranges_reoptimize_inv _ _ _ H)
      as (t & cx & cy & e1 & e2 & g1 & g2 & Ht & Hcx & Hcy & He1 & He2
          & Hg1 & Hg2).
    rewrite (param_ranges_reoptimize_ok self t cx cy e1 e2 g1 g2) in H
      by assumption.
    injection H as <- <-.
    split; [reflexivity |]. split; [reflexivity |].
    intros i Hi. simpl in Hi.
    do 7 (destruct i as [|i];
          [simpl; eexists; split;
           [eassumption | split; [lra | intros _; lra]] |]).
    lia.
Qed.

Lemma reoptimize_ranges_bracket_witness :
  let k : list dict :=
    [[("theta_E"%string, 1); ("center_x"%string, 0); ("center_y"%string, 0);
      ("e1"%string, 0.1); ("e2"%string, 0.2); ("gamma"%string, 2)];
     [("e1"%string, 0.01); ("e2"%string, 0.02)]] in
  let self :=
    mk_routine 2 2 [0%nat; 1%nat] k
      [["theta_E"%string; "center_x"%string; "center_y"%string;
        "e1"%string; "e2"%string];
       ["e1"%string; "e2"%string]] in
  init "SPEMD"%string ["SPEMD"%string; "SHEAR"%string] k = Okay self
  /\ ((exists low high, param_ranges self true = Okay (low, high))
      <-> (forall p, In p (varied_parameters self) ->
             exists v, lens_item (kwargs_lens self) (fst p) (snd p) = Okay v)).
Proof.
  intros k self.
  assert (H : init "SPEMD"%string ["SPEMD"%string; "SHEAR"%string] k = Okay self)
    by reflexivity.
  split; [exact H |].
  apply (proj1 (reoptimize_ranges_bracket "SPEMD"%string
                  ["SPEMD"%string; "SHEAR"%string] k self H)).
Defined.

(** A reoptimisation reads kwargs_lens in the order e1, e2 of the first
    lens, e1, e2 of the second, then theta_E, center_x, center_y of the
    first, and fails with the error of the first lookup that fails: an
    IndexError for a missing lens, a KeyError naming the missing key. *)
Theorem reoptimize_first_failure (self : routine) (e : error) :
  let order :=
    [(0%nat, "e1"%string); (0%nat, "e2"%string); (1%nat, "e1"%string);
     (1%nat, "e2"%string); (0%nat, "theta_E"%string);
     (0%nat, "center_x"%string); (0%nat, "center_y"%string)] in
  forall i,
    (i < length order)%nat ->
    (forall j, (j < i)%nat ->
       exists v, lens_item (kwargs_lens self)
                   (fst (nth j order (0%nat, ""%string)))
                   (snd (nth j order (0%nat, ""%string))) = Okay v) ->
    lens_item (kwargs_lens self)
      (fst (nth i order (0%nat, ""%string)))
      (snd (nth i order (0%nat, ""%string))) = Fail e ->
    param_ranges self true = Fail e.
Proof.
  intros order i Hi Hprev Hfail. unfold order in *. simpl in Hi.
  assert (P : forall j, (j < i)%nat ->
            exists v, lens_item (kwargs_lens self)
                        (fst (nth j order (0%nat, ""%string)))
                        (snd (nth j order (0%nat, ""%string))) = Okay v)
    by exact Hprev.
  unfold order in P. unfold param_ranges.
  destruct i as [|i]; [simpl in Hfail; rewrite Hfail; reflexivity |].
  destruct (P 0%nat ltac:(lia)) as [v0 E0]. simpl in E0. rewrite E0. simpl.
  destruct i as [|i]; [simpl in Hfail; rewrite Hfail; reflexivity |].
  destruct (P 1%nat ltac:(lia)) as [v1 E1]. simpl in E1. rewrite E1. simpl.
  destruct i as [|i]; [simpl in Hfail; rewrite Hfail; reflexivity |].
  destruct (P 2%nat ltac:(lia)) as [v2 E2]. simpl in E2. rewrite E2. simpl.
  destruct i as [|i]; [simpl in Hfail; rewrite Hfail; reflexivity |].
  destruct (P 3%nat ltac:(lia)) as [v3 E3]. simpl in E3. rewrite E3. simpl.
  destruct i as [|i]; [simpl in Hfail; rewrite Hfail; reflexivity |].
  destruct (P 4%nat ltac:(lia)) as [v4 E4]. simpl in E4. rewrite E4. simpl.
  destruct i as [|i]; [simpl in Hfail; rewrite Hfail; reflexivity |].
  destruct (P 5%nat ltac:(lia)) as [v5 E5]. simpl in E5. rewrite E5. simpl.
  destruct i as [|i]; [simpl in Hfail; rewrite Hfail; reflexivity |].
  lia.
Qed.

Lemma reoptimize_first_failure_witness :
  let self := mk_routine 2 2 [0%nat; 1%nat]
                [[("e1"%string, 0.1); ("e2"%string, 0.2)]] [] in
  lens_item (kwargs_lens self) 1 "e1"%string = Fail ListIndexError
  /\ param_ranges self true = Fail ListIndexError.
Proof.
  intros self.
  assert (H : lens_item (kwargs_lens self) 1 "e1"%string = Fail ListIndexError)
    by reflexivity.
  split; [exact H |].
  apply (reoptimize_first_failure self ListIndexError 2%nat).
  - simpl. lia.
  - intros [|[|j]] Hj; simpl; try lia; eexists; reflexivity.
  - exact H.
Defined.

(** [vary_model_fixed] returns the single entry gamma of the first lens,
    a key missing from it raises KeyError, and on a constructed object
    gamma is not among the varied parameters. *)
Theorem fixed_model_is_gamma first l k self :
  init first l k = Okay self ->
  (forall d0 rest g,
      k = d0 :: rest -> dict_get d0 "gamma"%string = Some g ->
      fixed_model self = Okay [("gamma"%string, g)])
  /\ (forall d0 rest,
        k = d0 :: rest -> dict_get d0 "gamma"%string = None ->
        fixed_model self = Fail (KeyError "gamma"%string))
  /\ (k = [] -> fixed_model self = Fail ListIndexError)
  /\ (forall p, In p (varied_parameters self) -> snd p <> "gamma"%string).
Proof.
  intros Hinit.
  destruct (init_fields _ _ _ _ Hinit) as (_ & _ & H3 & H4 & H5).
  unfold fixed_model, lens_item, list_item, dict_item. rewrite H4.
  split; [| split; [| split]].
  - intros d0 rest g -> Hg. simpl. rewrite Hg. reflexivity.
  - intros d0 rest -> Hg. simpl. rewrite Hg. reflexivity.
  - intros ->. reflexivity.
  - unfold varied_parameters. rewrite H3, H5. simpl.
    intros p Hp.
    destruct Hp as [<- | [<- | [<- | [<- | [<- | [<- | [<- | []]]]]]]];
      simpl; discriminate.
Qed.

Lemma fixed_model_is_gamma_witness :
  let k : list dict := [[("gamma"%string, 2)]; []] in
  let self :=
    mk_routine 2 2 [0%nat; 1%nat] k
      [["theta_E"%string; "center_x"%string; "center_y"%string;
        "e1"%string; "e2"%string];
       ["e1"%string; "e2"%string]] in
  init "SPEP"%string ["SPEP"%string; "SHEAR"%string] k = Okay self
  /\ fixed_model self = Okay [("gamma"%string, 2)].
Proof.
  intros k self.
  assert (H : init "SPEP"%string ["SPEP"%string; "SHEAR"%string] k = Okay self)
    by reflexivity.
  split; [exact H |].
  apply (proj1 (fixed_model_is_gamma "SPEP"%string ["SPEP"%string; "SHEAR"%string]
                  k self H) [("gamma"%string, 2)] [[]] 2); reflexivity.
Defined.

End fixed_routines_facts.
